(** * The modal registry of [app/overmind/factories.ts]

    A shallow embedding of [createModals] and of the [open] / [close]
    actions that [createModal] builds for every modal name, with the
    promise that [open] hands to its caller made explicit.

    - JavaScript values are a small inductive type; [||] is [js_or].
    - [state.modals] is one object: the register [current] and the slot of
      every modal are properties of it, so it is a map from property names
      to nodes, a node being [null], a string or a slot.  The key
      ["current"] is shared between the register and a modal of that name.
    - A slot is one object as well: a map from property names to what they
      hold, a plain value or a derived one.  [isCurrent] is a property like
      the others; [Object.assign] writes it when its source has it.
    - The variable [let resolver] that each call of [createModal] closes
      over is a cell of a store keyed by the modal's name.
    - Promises live in a heap indexed by allocation order; a resolving
      function is the index of its promise.  Every invocation of a
      resolving function is recorded in a log, whether or not it still
      settles the promise. *)

From Stdlib Require Import ZArith.
From stdpp Require Import base option list strings gmap fin_maps pretty.

Local Open Scope string_scope.

(** ** Values *)

Inductive value : Type :=
| VUndefined
| VNull
| VBool (b : bool)
| VNum (z : Z)
| VNaN
| VStr (s : string)
| VObj (ref : nat).

Global Instance value_eq_dec : EqDecision value.
Proof. solve_decision. Defined.

(** ToBoolean.  Numbers are the integers and NaN; object references stand for
    plain (non-thenable) objects. *)
Definition truthy (v : value) : bool :=
  match v with
  | VUndefined | VNull | VNaN => false
  | VBool b => b
  | VNum z => negb (Z.eqb z 0)
  | VStr s => negb (String.eqb s "")
  | VObj _ => true
  end.

(** [a || b] *)
Definition js_or (a b : value) : value := if truthy a then a else b.

(** An object used as a record of plain properties ([IState]): its own
    enumerable properties. *)
Abbreviation IState := (gmap string value).

(** ** Objects that are built by assignment

    [aggr.state] and [aggr.actions] start as the literals
    [{ current: null }] and [{}] and get everything else by assignment
    ([aggr.state[name] = ...]).  On such an object the name [__proto__] is
    no property: the assignment sets the prototype of the object and adds
    nothing to its own properties, and a read gives that prototype back.
    The maps that stand for these two objects hold, at the key
    ["__proto__"], the prototype the object was given; every other key is
    an own property. *)
Definition Object_keys {A : Type} (o : gmap string A) : gset string :=
  dom o ∖ {[ "__proto__" ]}.

(** The own properties of the wrapper object of a string primitive: its
    indices and [length].  None of them is writable. *)
Definition String_own_key (s k : string) : bool :=
  bool_decide (k = "length") ||
  bool_decide (k ∈ (pretty <$> seq 0 (String.length s))).

(** ** The definition map *)

Module Modal.
(** One entry of the argument of [createModals]: [{ state?, result? }]. *)
Record t : Type := mk { state : option IState; result : option value }.
End Modal.

(** [modal.result]: an absent property reads as [undefined]. *)
Definition get_result (modal : Modal.t) : value :=
  default VUndefined (Modal.result modal).

(** ** The state tree *)

(** Modelled from the spec: overmind's [derived] is not part of this
    repository's sources.  A derived property is a projection of the root
    state, recomputed on every read.  The projection built by [createModal]
    is the closure [(_, root) => root.modals.current === name]; it is kept
    here by the [name] it captures. *)
Inductive Derived : Type := derived (name : string).

(** What a property of a slot holds. *)
Inductive Field : Type :=
| Plain (v : value)
| Computed (d : Derived).

(** The sub-state of a modal: the own properties of the object
    [{ ...modal.state, isCurrent: derived(...) }] and of what [open] makes
    of it. *)
Abbreviation Slot := (gmap string Field).

(** What a property of [state.modals] can hold. *)
Inductive Node : Type :=
| NNull                   (* [current = null] *)
| NStr (s : string)       (* [current = name] *)
| NSlot (s : Slot).       (* the sub-state of a modal *)

(** [state.modals] *)
Abbreviation ModalsState := (gmap string Node).

(** [Object.assign(target, source)] on a slot: every own property of
    [source] is assigned, in the slot, as a plain value; a derived property
    of that name is replaced like any other.  The name [__proto__] is
    assigned that way only where the slot has a property so named (one that
    the spread of [modal.state] copied); else the assignment goes to the
    setter inherited from [Object.prototype], which adds no property. *)
Definition Object_assign (target : Slot) (source : IState) : Slot :=
  let assigned :=
    if decide (is_Some (target !! "__proto__")) then source
    else delete "__proto__" source in
  (Plain <$> assigned) ∪ target.

(** [root.modals.current === name]: only a string can be identical to
    [name]. *)
Definition read_derived (d : Derived) (root : ModalsState) : bool :=
  match d, root !! "current" with
  | derived name, Some (NStr s) => bool_decide (s = name)
  | _, _ => false
  end.

(** [state.modals[name].isCurrent] for a [name] that [state.modals] holds.
    On a slot it is what the property [isCurrent] holds, computed when that
    is derived.  A string has no such property and reads [undefined]; on
    [null] the read throws, which is [None].  For a name [state.modals] does
    not hold, the result is [None] as well: the read would go on in the
    prototype, which is not followed here. *)
Definition read_isCurrent (root : ModalsState) (name : string) : option value :=
  match root !! name with
  | Some (NSlot s) =>
      match s !! "isCurrent" with
      | Some (Computed d) => Some (VBool (read_derived d root))
      | Some (Plain v) => Some v
      | None => Some VUndefined     (* no slot the registry makes is without it *)
      end
  | Some (NStr _) => Some VUndefined
  | Some NNull | None => None
  end.

(** [state.modals[name]], when it is a sub-state. *)
Definition sub_state (root : ModalsState) (name : string) : option Slot :=
  match root !! name with
  | Some (NSlot s) => Some s
  | _ => None
  end.

(** [Object.assign(state.modals[name], source)].  A slot takes the
    properties of [source].  A string target is wrapped in a temporary
    object that is dropped afterwards; writing one of its own properties
    throws.  A [null] or missing target throws.  [None] is the throw. *)
Definition assign_at (root : ModalsState) (name : string) (source : IState)
    : option ModalsState :=
  match root !! name with
  | Some (NSlot s) => Some (<[name := NSlot (Object_assign s source)]> root)
  | Some (NStr str) =>
      if existsb (String_own_key str) (elements (dom source))
      then None else Some root
  | Some NNull | None => None
  end.

(** ** Promises and the world the actions run in *)

Inductive PromiseState : Type :=
| Pending
| Fulfilled (v : value)
| Rejected (e : string).

Record World : Type := mkWorld {
  modals : ModalsState;               (* [state.modals] *)
  resolver : gmap string nat;         (* the [resolver] of each modal; unset = falsy *)
  promises : list PromiseState;       (* every promise made so far *)
  resolve_log : list (nat * value)    (* invocations of resolving functions *)
}.

(** [new Promise(resolve => ...)]: the new promise is pending and its index
    is the next free one. *)
Definition new_promise (w : World) : World * nat :=
  (mkWorld (modals w) (resolver w) (promises w ++ [Pending]) (resolve_log w),
   length (promises w)).

(** Calling the resolving function of promise [p] with [v]: a pending
    promise is fulfilled, a settled one ignores the call. *)
Definition settle (p : nat) (v : value) (ps : list PromiseState) : list PromiseState :=
  match ps !! p with
  | Some Pending => <[p := Fulfilled v]> ps
  | _ => ps
  end.

Definition call_resolve (p : nat) (v : value) (w : World) : World :=
  mkWorld (modals w) (resolver w) (settle p v (promises w))
          (resolve_log w ++ [(p, v)]).

(** What a call of an action gives back to its caller. *)
Inductive Outcome : Type :=
| Suspended (p : nat)     (* [open]: a pending promise, which the caller awaits *)
| Returned                (* [close]: nothing *)
| Refused (p : nat)       (* [open]: a promise that is rejected already *)
| Thrown (e : string).    (* the call itself failed: there is no such action *)

(** ** [createModal] *)

(** [open] and [close] of one modal share the variables [name], [modal] and
    [resolver]; the first two are fixed when [createModal] is called. *)
Record Actions : Type := mkActions { act_name : string; act_modal : Modal.t }.

(** [async ({ state }, newState = {}) => { ... }].  The promise that the
    [async] arrow itself returns adopts the one made in its body; the two are
    identified.  When [Object.assign] throws, the arrow has assigned
    [current] only, and the promise it returns is rejected with the error;
    [resolver] is as it was. *)
Definition open (name : string) (modal : Modal.t)
    (newState : option IState) (w : World) : World * Outcome :=
  let newState := default ∅ newState in
  let st := <["current" := NStr name]> (modals w) in
  match assign_at st name newState with
  | None => (mkWorld st (resolver w) (promises w ++ [Rejected "TypeError"])
                     (resolve_log w),
             Refused (length (promises w)))
  | Some st =>
      let '(w', p) := new_promise (mkWorld st (resolver w) (promises w)
                                           (resolve_log w)) in
      (mkWorld (modals w') (<[name := p]> (resolver w')) (promises w')
               (resolve_log w'),
       Suspended p)
  end.

(** [async ({ state }, payload) => { ... }]; a call without argument has
    [payload = undefined]. *)
Definition close (name : string) (modal : Modal.t)
    (payload : value) (w : World) : World * Outcome :=
  let w := mkWorld (<["current" := NNull]> (modals w)) (resolver w)
                   (promises w) (resolve_log w) in
  match resolver w !! name with
  | Some p => (call_resolve p (js_or payload (get_result modal)) w, Returned)
  | None => (w, Returned)
  end.

Record Created : Type := mkCreated { c_state : Slot; c_actions : Actions }.

(** The slot is [{ ...modal.state, isCurrent: derived(...) }]: the
    properties of [modal.state], if there is one, and then [isCurrent],
    which replaces a property of that name. *)
Definition createModal (name : string) (modal : Modal.t) : Created :=
  mkCreated (<["isCurrent" := Computed (derived name)]>
               (Plain <$> default ∅ (Modal.state modal)))
            (mkActions name modal).

(** ** [createModals] *)

Record Registry : Type := mkRegistry {
  state : ModalsState;
  actions : gmap string Actions
}.

(** [Object.keys(modals).reduce(..., { state: { current: null }, actions: {} })];
    the two assignments of a step are the two inserts.  For the key
    ["__proto__"] they set the prototypes, see [Object_keys]. *)
Definition createModals (modals : gmap string Modal.t) : Registry :=
  map_fold
    (fun name m aggr =>
       let modal := createModal name m in
       mkRegistry (<[name := NSlot (c_state modal)]> (state aggr))
                  (<[name := c_actions modal]> (actions aggr)))
    (mkRegistry {[ "current" := NNull ]} ∅)
    modals.

(** The world right after construction: the state tree of the registry,
    no resolver assigned, no promise made. *)
Definition start (reg : Registry) : World := mkWorld (state reg) ∅ [] [].

(** ** Calling the actions *)

Inductive Call : Type :=
| Open (name : string) (newState : option IState)
| Close (name : string) (payload : value).

(** The modal a call is addressed to. *)
Definition call_name (c : Call) : string :=
  match c with Open k _ | Close k _ => k end.

(** [actions.modals[name].open(newState)] and [actions.modals[name].close(payload)];
    a name without actions fails at the call site and changes nothing. *)
Definition dispatch (reg : Registry) (c : Call) (w : World) : World * Outcome :=
  match c with
  | Open k newState =>
      match actions reg !! k with
      | Some a => open (act_name a) (act_modal a) newState w
      | None => (w, Thrown "TypeError")
      end
  | Close k payload =>
      match actions reg !! k with
      | Some a => close (act_name a) (act_modal a) payload w
      | None => (w, Thrown "TypeError")
      end
  end.

Definition run (reg : Registry) (cs : list Call) (w : World) : World :=
  foldl (fun w c => (dispatch reg c w).1) w cs.

(** The world a registry built from [ms] is in after the calls [cs]. *)
Definition reached (ms : gmap string Modal.t) (cs : list Call) : World :=
  run (createModals ms) cs (start (createModals ms)).

(** A call that leaves the property [isCurrent] alone: [open] with a new
    state that has a property of that name puts a plain value where the
    derived one was. *)
Definition keeps_isCurrent (c : Call) : Prop :=
  match c with
  | Open _ (Some newState) => newState !! "isCurrent" = None
  | _ => True
  end.

(** A definition map in the style of the application: a modal with a
    default result and no state, and one with state and no default result. *)
Definition example_modals : gmap string Modal.t :=
  {[ "forkFrozenModal" := Modal.mk None (Some (VStr "fork"));
     "moveSandboxModal" :=
       Modal.mk (Some {[ "defaultOpenedDirectory" := VNull ]}) None ]}.

(** A definition map with a modal named like the register. *)
Definition clash_modals : gmap string Modal.t :=
  {[ "current" := Modal.mk (Some {[ "x" := VNum 1 ]}) None;
     "forkFrozenModal" := Modal.mk None (Some (VStr "fork")) ]}.

(** A definition map as [JSON.parse] can give it, with an own property
    [__proto__]. *)
Definition proto_modals : gmap string Modal.t :=
  {[ "__proto__" := Modal.mk None None;
     "forkFrozenModal" := Modal.mk None (Some (VStr "fork")) ]}.

(** ** The invariant of the worlds a registry can reach *)

Record Inv (ms : gmap string Modal.t) (w : World) : Prop := mkInv {
  inv_slot : ∀ n, n ≠ "current" →
    match ms !! n with
    | Some _ => ∃ s, modals w !! n = Some (NSlot s)
    | None => modals w !! n = None
    end;
  inv_current :
    match modals w !! "current" with
    | Some NNull => True
    | Some (NStr n) => is_Some (ms !! n)
    | Some (NSlot s) =>
        is_Some (ms !! "current") ∧
        s !! "isCurrent" = Some (Computed (derived "current"))
    | None => False
    end;
  inv_res_bound : ∀ n p, resolver w !! n = Some p → p < length (promises w);
  inv_res_inj : ∀ n1 n2 p,
    resolver w !! n1 = Some p → resolver w !! n2 = Some p → n1 = n2
}.

(** The flag of every slot is still the derived one of its modal. *)
Definition Flags_derived (w : World) : Prop :=
  ∀ n s, modals w !! n = Some (NSlot s) →
         s !! "isCurrent" = Some (Computed (derived n)).

(** ** Promises and their resolvers *)

(** [p] has been made and only the resolver of [n] may hold it. *)
Definition Owned (p : nat) (n : string) (w : World) : Prop :=
  p < length (promises w) ∧ ∀ k, resolver w !! k = Some p → k = n.


(** ** [pages/index.tsx]: the modal that follows the register *)

(** [{modals.moveSandboxModal.isCurrent && <MoveSandboxFolderModal />}]:
    the component is rendered when the flag is truthy.  [None] when reading
    the flag throws. *)
Definition renders_MoveSandboxFolderModal (root : ModalsState) : option bool :=
  truthy <$> read_isCurrent root "moveSandboxModal".

(** ** [withOwnedSandbox] *)

(** The part of [state.editor] that [withOwnedSandbox] reads.  The type of
    permissions and [hasPermission] come from [@codesandbox/common] and are
    parameters. *)
Record Sandbox (P : Type) : Type := mkSandbox {
  sandbox_id : string;
  owned : bool;
  authorization : P;
  isFrozen : bool
}.
Arguments mkSandbox {P}.
Arguments sandbox_id {P}.
Arguments owned {P}.
Arguments authorization {P}.
Arguments isFrozen {P}.

Record Editor (P : Type) : Type := mkEditor {
  currentSandbox : option (Sandbox P);     (* [None] is a falsy [currentSandbox] *)
  isForkingSandbox : bool;
  sessionFrozen : bool
}.
Arguments mkEditor {P}.
Arguments currentSandbox {P}.
Arguments isForkingSandbox {P}.
Arguments sessionFrozen {P}.

(** What the action does next, as a tree: a node is a call that the action
    awaits or a write to the state, with one subtree per way the
    environment can answer; a leaf is the action it returns the result of. *)
Inductive Flow : Type :=
| ForkSandbox (sandboxId : string) (resolved rejected : Flow)
    (* [try { await actions.editor.internal.forkSandbox({ sandboxId }) } catch] *)
| OpenForkFrozenModal (k : value → Flow)
    (* [await actions.modals.forkFrozenModal.open()] *)
| SetSessionFrozen (b : bool) (k : Flow)
    (* [state.editor.sessionFrozen = b] *)
| ContinueAction       (* [return continueAction(context, payload)] *)
| CancelAction.        (* [return cancelAction(context, payload)] *)

(** [typeof requiredPermission === 'undefined' ? !sandbox.owned
      : !hasPermission(sandbox.authorization, requiredPermission)] *)
Definition lacks_permission {P : Type} (hasPermission : P → P → bool)
    (requiredPermission : option P) (sandbox : Sandbox P) : bool :=
  match requiredPermission with
  | None => negb (owned sandbox)
  | Some required => negb (hasPermission (authorization sandbox) required)
  end.

(** The branches on [modalResponse]. *)
Definition after_modal (sandboxId : string) (modalResponse : value) : Flow :=
  if decide (modalResponse = VStr "fork") then
    ForkSandbox sandboxId ContinueAction CancelAction
  else if decide (modalResponse = VStr "unfreeze") then
    SetSessionFrozen false ContinueAction
  else if decide (modalResponse = VStr "cancel") then
    CancelAction
  else ContinueAction.

Definition withOwnedSandbox {P : Type} (hasPermission : P → P → bool)
    (requiredPermission : option P) (editor : Editor P) : Flow :=
  match currentSandbox editor with
  | Some sandbox =>
      if lacks_permission hasPermission requiredPermission sandbox then
        if isForkingSandbox editor then CancelAction
        else ForkSandbox (sandbox_id sandbox) ContinueAction CancelAction
      else if isFrozen sandbox && sessionFrozen editor then
        OpenForkFrozenModal (after_modal (sandbox_id sandbox))
      else ContinueAction
  | None => ContinueAction
  end.

(** What can be observed of a run. *)
Inductive Event : Type :=
| EvFork (sandboxId : string) (ok : bool)   (* [forkSandbox] was called and resolved or rejected *)
| EvModal (modalResponse : value)           (* the modal was opened and answered *)
| EvSessionFrozen (b : bool)                (* [sessionFrozen] was written *)
| EvContinue
| EvCancel.

Global Instance Event_eq_dec : EqDecision Event.
Proof. solve_decision. Defined.

(** A run against an environment in which [forkSandbox] resolves or
    rejects as [fork_ok] says and the modal is answered by [modalResponse]. *)
Fixpoint play (fork_ok : string → bool) (modalResponse : value) (f : Flow)
    : list Event :=
  match f with
  | ForkSandbox sandboxId resolved rejected =>
      EvFork sandboxId (fork_ok sandboxId) ::
      play fork_ok modalResponse
           (if fork_ok sandboxId then resolved else rejected)
  | OpenForkFrozenModal k =>
      EvModal modalResponse :: play fork_ok modalResponse (k modalResponse)
  | SetSessionFrozen b k => EvSessionFrozen b :: play fork_ok modalResponse k
  | ContinueAction => [EvContinue]
  | CancelAction => [EvCancel]
  end.

(** [await actions.modals.forkFrozenModal.open()] against the registry:
    [open] is called in world [w]; while the caller waits the calls [ui] are
    made; the caller resumes with the value of its promise once that is
    fulfilled.  [None]: the caller is still waiting, or it got no pending
    promise to wait for. *)
Definition awaited (w : World) (p : nat) : option value :=
  match promises w !! p with
  | Some (Fulfilled v) => Some v
  | _ => None
  end.

Definition forkFrozenModal_response (reg : Registry) (ui : list Call) (w : World)
    : option value :=
  match dispatch reg (Open "forkFrozenModal" None) w with
  | (w1, Suspended p) => awaited (run reg ui w1) p
  | _ => None
  end.

(** A run of a flow in which the answer of the modal comes from the
    registry.  [None]: the caller is still waiting. *)
Definition play_with_registry (fork_ok : string → bool) (reg : Registry)
    (ui : list Call) (w : World) (f : Flow) : option (list Event) :=
  match f with
  | OpenForkFrozenModal k =>
      (fun r => EvModal r :: play fork_ok r (k r))
        <$> forkFrozenModal_response reg ui w
  | _ => Some (play fork_ok VUndefined f)
  end.

(** ** [Import.tsx]: the form of the import tab *)

(** The three [useState] cells. *)
Record ImportForm : Type := mkImportForm {
  error : option string;        (* [None] is [null] *)
  transformedUrl : string;
  url : string
}.

Definition initial_form : ImportForm := mkImportForm None "" "".

(** [updateUrl]; [gitHubRepoPattern.test], [gitHubToSandboxUrl],
    [protocolAndHost()] and [String.prototype.trim] are parameters. *)
Definition updateUrl (test : string → bool) (gitHubToSandboxUrl : string → string)
    (protocolAndHost : string) (trim : string → string)
    (newUrl : string) (form : ImportForm) : ImportForm :=
  if String.eqb newUrl "" then
    mkImportForm None "" newUrl
  else if negb (test newUrl) then
    mkImportForm (Some "The URL provided is not valid.") "" newUrl
  else
    mkImportForm None (protocolAndHost ++ gitHubToSandboxUrl (trim newUrl))
                 newUrl.

(** [s] without the prefix [p], when it starts with it. *)
Fixpoint strip_prefix (p s : string) : option string :=
  match p, s with
  | EmptyString, _ => Some s
  | String a p', String b s' =>
      if Ascii.eqb a b then strip_prefix p' s' else None
  | String _ _, EmptyString => None
  end.

(** [s.replace(/^https?:\/\//, '')] *)
Definition strip_protocol (s : string) : string :=
  match strip_prefix "https://" s with
  | Some r => r
  | None => default s (strip_prefix "http://" s)
  end.

(** What the form shows under the input: the link, when [transformedUrl] is
    truthy, else the placeholder [error || 'Enter a URL ...']. *)
Inductive Shown : Type :=
| GitHubLink (href text : string)
| PlaceHolderLink (text : string).

Definition shown (form : ImportForm) : Shown :=
  if String.eqb (transformedUrl form) "" then
    PlaceHolderLink
      (match error form with
       | Some e => if String.eqb e "" then "Enter a URL to see the generated URL"
                   else e
       | None => "Enter a URL to see the generated URL"
       end)
  else GitHubLink (transformedUrl form) (strip_protocol (transformedUrl form)).

(** [disabled={!transformedUrl}] of both buttons. *)
Definition buttons_disabled (form : ImportForm) : bool :=
  String.eqb (transformedUrl form) "".

(** ** [withLoadApp] *)

Record User : Type := mkUser { user_id : string; email : string }.
Record Contributor : Type := mkContributor { login : string }.

(** What [withLoadApp] reads and writes: fields of [state], and
    [localStorage.jwt]. *)
Record AppState : Type := mkAppState {
  hasLoadedApp : bool;
  isAuthenticating : bool;
  hasLogIn : bool;
  user : option User;
  contributors : list string;
  jwt : option string            (* [localStorage.jwt]; [None] is [undefined] *)
}.

(** The code [withLoadApp] calls: actions, effects and library functions,
    none of them part of these sources. *)
Inductive Ext : Type :=
| connection_addListener       (* [effects.connection.addListener(actions.connectionChanged)] *)
| setStoredSettings            (* [actions.internal.setStoredSettings()] *)
| codesandboxApi_listen        (* [effects.codesandboxApi.listen(...)] *)
| JSON_parse (text : string)
| api_revokeToken (token : value)
| addNotification              (* [notificationState.addNotification({...})] *)
| api_getCurrentUser
| dashboard_getTeams
| setPatronPrice
| analytics_identify (signedIn : bool)   (* [effects.analytics.identify('signed_in', true)] *)
| analytics_setUserId (id mail : string)
| trackCurrentTeams
| identifyCurrentUser
| showUserSurveyIfNeeded
| live_getSocket
| userNotifications_initialize
| api_preloadTemplates
| handleError (message : string)
| identify (signedIn : bool)             (* [identify('signed_in', false)] *)
| analytics_setAnonymousId
| continueAction
| http_get (address : string).

Global Instance Ext_eq_dec : EqDecision Ext.
Proof. solve_decision. Defined.

(** The assignments [withLoadApp] makes. *)
Inductive Write : Type :=
| W_isAuthenticating (b : bool)
| W_hasLogIn (b : bool)
| W_user (u : option User)
| W_hasLoadedApp (b : bool)
| W_contributors (l : list string)
| W_cookie (text : string)       (* [document.cookie = text] *)
| W_delete_jwt.                  (* [delete localStorage.jwt] *)

(** The action as a tree.  A call has a subtree for its return and one for
    its throwing or rejecting: the handler of the enclosing [try], or
    [BootRejected] where there is none.  A read of the state has a subtree
    per value. *)
Inductive Boot : Type :=
| Do (c : Ext) (returned thrown : Boot)
| Parse (text : string) (returned : value → Boot) (thrown : Boot)
| GetCurrentUser (resolved : option User → Boot) (rejected : Boot)
| HttpGet (address : string) (resolved : option (list Contributor) → Boot)
          (rejected : Boot)
| Store (w : Write) (next : Boot)
| Load_hasLoadedApp (k : bool → Boot)
| Load_hasLogIn (k : bool → Boot)
| Load_user (k : option User → Boot)
| Load_jwt (k : option string → Boot)
| BootDone
| BootRejected.

Definition contributors_address : string :=
  "https://raw.githubusercontent.com/codesandbox/codesandbox-client/master/.all-contributorsrc".

Definition signedIn_cookie : string :=
  "signedIn=; expires=Thu, 01 Jan 1970 00:00:00 UTC; path=/;".

Definition sign_in_trouble : string := "We had trouble with signing you in".

(** From [state.hasLoadedApp = true] to the end.  A response without
    [data.contributors] to map over is [None]; it throws into the same
    [catch] as a failed request. *)
Definition boot_finish : Boot :=
  Store (W_hasLoadedApp true)
    (Store (W_isAuthenticating false)
       (HttpGet contributors_address
          (fun response =>
             match response with
             | Some cs => Store (W_contributors (login <$> cs)) BootDone
             | None => BootDone
             end)
          BootDone)).

(** [if (continueAction) { await continueAction(context, value); }] and on. *)
Definition boot_continue (hasContinue : bool) : Boot :=
  if hasContinue then Do continueAction boot_finish BootRejected
  else boot_finish.

(** The branch [if (state.hasLogIn) { try { ... } catch (error) { ... } }]. *)
Definition boot_signed_in (hasContinue : bool) : Boot :=
  let next := boot_continue hasContinue in
  let failed := Do (handleError sign_in_trouble) next BootRejected in
  GetCurrentUser
    (fun u =>
       Store (W_user u)
         (Do dashboard_getTeams
            (Do setPatronPrice
               (Do (analytics_identify true)
                  (Load_user (fun current =>
                     match current with
                     | None => failed        (* [state.user!.id] throws *)
                     | Some usr =>
                         Do (analytics_setUserId (user_id usr) (email usr))
                            (let rest :=
                               Do showUserSurveyIfNeeded
                                  (Do live_getSocket
                                     (Do userNotifications_initialize
                                        (Do api_preloadTemplates
                                           (Store (W_hasLogIn true) next)
                                           failed)
                                        failed)
                                     failed)
                                  failed in
                             Do trackCurrentTeams
                                (Do identifyCurrentUser rest rest)
                                rest)
                            failed
                     end))
                  failed)
               failed)
            failed))
    failed.

(** The [else] branch. *)
Definition boot_anonymous (hasContinue : bool) : Boot :=
  Do (identify false)
     (Do analytics_setAnonymousId (boot_continue hasContinue) BootRejected)
     BootRejected.

Definition boot_session (hasContinue : bool) : Boot :=
  Load_hasLogIn (fun signedIn =>
    if signedIn then boot_signed_in hasContinue
    else boot_anonymous hasContinue).

(** The branch [if (localStorage.jwt) { ... }]; the second read of
    [localStorage.jwt] follows the first with no call in between. *)
Definition boot_stale_token (text : string) (next : Boot) : Boot :=
  let after := Store W_delete_jwt (Do addNotification next BootRejected) in
  Store (W_cookie signedIn_cookie)
    (Store (W_hasLogIn false)
       (Parse text (fun token => Do (api_revokeToken token) after after)
              after)).

(** [hasContinue]: whether [continueAction] was given. *)
Definition withLoadApp (hasContinue : bool) : Boot :=
  Load_hasLoadedApp (fun loaded =>
    if loaded && hasContinue then Do continueAction BootDone BootRejected
    else if loaded then BootDone
    else
      Store (W_isAuthenticating true)
        (Do connection_addListener
           (Do setStoredSettings
              (Do codesandboxApi_listen
                 (Load_jwt (fun stored =>
                    match stored with
                    | Some text =>
                        if String.eqb text "" then boot_session hasContinue
                        else boot_stale_token text (boot_session hasContinue)
                    | None => boot_session hasContinue
                    end))
                 BootRejected)
              BootRejected)
           BootRejected)).

(** The environment of a run: which calls throw or reject, what the parser
    and the servers answer, and what happens to the state while an action
    runs or an awaited call is pending. *)
Record Env : Type := mkEnv {
  throws : Ext → bool;
  meanwhile : Ext → AppState → AppState;
  parsed : string → value;
  fetched_user : option User;
  fetched_contributors : option (list Contributor)
}.

(** Actions get the state, and so does whatever runs while the function is
    suspended in an [await]; effects and library functions do not. *)
Definition reaches_state (c : Ext) : bool :=
  match c with
  | setStoredSettings | dashboard_getTeams | setPatronPrice
  | trackCurrentTeams | identifyCurrentUser | showUserSurveyIfNeeded
  | userNotifications_initialize | handleError _ | continueAction
  | api_getCurrentUser | live_getSocket | http_get _ => true
  | _ => false
  end.

Definition apply_write (w : Write) (st : AppState) : AppState :=
  match w with
  | W_isAuthenticating b =>
      mkAppState (hasLoadedApp st) b (hasLogIn st) (user st) (contributors st) (jwt st)
  | W_hasLogIn b =>
      mkAppState (hasLoadedApp st) (isAuthenticating st) b (user st) (contributors st) (jwt st)
  | W_user u =>
      mkAppState (hasLoadedApp st) (isAuthenticating st) (hasLogIn st) u (contributors st) (jwt st)
  | W_hasLoadedApp b =>
      mkAppState b (isAuthenticating st) (hasLogIn st) (user st) (contributors st) (jwt st)
  | W_contributors l =>
      mkAppState (hasLoadedApp st) (isAuthenticating st) (hasLogIn st) (user st) l (jwt st)
  | W_cookie _ => st
  | W_delete_jwt =>
      mkAppState (hasLoadedApp st) (isAuthenticating st) (hasLogIn st) (user st)
                 (contributors st) None
  end.

(** What a run shows: the calls with how they ended, and the writes. *)
Inductive Obs : Type :=
| Called (c : Ext) (ok : bool)
| Stored (w : Write).

Inductive Settled : Type := Resolves | Rejects.

Definition after_call (env : Env) (c : Ext) (st : AppState) : AppState :=
  if reaches_state c then meanwhile env c st else st.

(** A run from state [st]; [seen] is what the run has shown so far. *)
Fixpoint boot_go (env : Env) (b : Boot) (st : AppState) (seen : list Obs)
    : list Obs * AppState * Settled :=
  let call c returned thrown :=
    boot_go env (if throws env c then thrown else returned)
            (after_call env c st)
            (seen ++ [Called c (negb (throws env c))]) in
  match b with
  | Do c returned thrown => call c returned thrown
  | Parse text returned thrown =>
      call (JSON_parse text) (returned (parsed env text)) thrown
  | GetCurrentUser resolved rejected =>
      call api_getCurrentUser (resolved (fetched_user env)) rejected
  | HttpGet address resolved rejected =>
      call (http_get address) (resolved (fetched_contributors env)) rejected
  | Store w next => boot_go env next (apply_write w st) (seen ++ [Stored w])
  | Load_hasLoadedApp k => boot_go env (k (hasLoadedApp st)) st seen
  | Load_hasLogIn k => boot_go env (k (hasLogIn st)) st seen
  | Load_user k => boot_go env (k (user st)) st seen
  | Load_jwt k => boot_go env (k (jwt st)) st seen
  | BootDone => (seen, st, Resolves)
  | BootRejected => (seen, st, Rejects)
  end.

Definition boot_run (env : Env) (b : Boot) (st : AppState)
    : list Obs * AppState * Settled :=
  boot_go env b st [].

(** What a run of [withLoadApp] shows, and how it ends. *)
Definition boot_trace (env : Env) (hasContinue : bool) (st : AppState)
    : list Obs :=
  (boot_run env (withLoadApp hasContinue) st).1.1.

Definition boot_result (env : Env) (hasContinue : bool) (st : AppState)
    : Settled :=
  (boot_run env (withLoadApp hasContinue) st).2.

(** What the run shows from [if (continueAction)] to the end, and how it
    ends; the state plays no part in it. *)
Definition finish_trace (env : Env) : list Obs :=
  [Stored (W_hasLoadedApp true); Stored (W_isAuthenticating false);
   Called (http_get contributors_address)
          (negb (throws env (http_get contributors_address)))]
  ++ (if throws env (http_get contributors_address) then []
      else match fetched_contributors env with
           | Some cs => [Stored (W_contributors (login <$> cs))]
           | None => []
           end).

Definition continue_trace (env : Env) (hasContinue : bool) : list Obs :=
  if hasContinue then
    Called continueAction (negb (throws env continueAction))
    :: (if throws env continueAction then [] else finish_trace env)
  else finish_trace env.

Definition continue_result (env : Env) (hasContinue : bool) : Settled :=
  if hasContinue && throws env continueAction then Rejects else Resolves.

(** The state the run ends in, from the state at [if (continueAction)]. *)
Definition continue_state (env : Env) (hasContinue : bool) (st : AppState)
    : AppState :=
  (boot_go env (boot_continue hasContinue) st []).1.2.

(** Selecting observations. *)
Definition is_stored (w : Write) (o : Obs) : bool :=
  match o, w with
  | Stored W_delete_jwt, W_delete_jwt => true
  | Stored (W_hasLoadedApp a), W_hasLoadedApp b => bool_decide (a = b)
  | Stored (W_hasLogIn a), W_hasLogIn b => bool_decide (a = b)
  | Stored (W_isAuthenticating a), W_isAuthenticating b => bool_decide (a = b)
  | Stored (W_contributors _), W_contributors _ => true
  | _, _ => false
  end.

Definition is_called (c : Ext) (o : Obs) : bool :=
  match o with
  | Called c' _ => bool_decide (c' = c)
  | Stored _ => false
  end.

(** How often [c] is called in a run. *)
Definition calls_of (c : Ext) (tr : list Obs) : nat :=
  length (List.filter (is_called c) tr).

(** What only the part from [if (continueAction)] to the end shows. *)
Definition is_tail (o : Obs) : bool :=
  match o with
  | Called continueAction _ | Called (http_get _) _
  | Stored (W_hasLoadedApp true) | Stored (W_isAuthenticating false)
  | Stored (W_contributors _) => true
  | _ => false
  end.

(** Environments and states to run [withLoadApp] in. *)
Definition failing_env (failing : Ext → bool) : Env :=
  mkEnv failing (fun _ st => st) VStr
        (Some (mkUser "u1" "u1@example.com"))
        (Some [mkContributor "alice"; mkContributor "bob"]).

Definition quiet_env : Env := failing_env (fun _ => false).
Definition track_fails_env : Env :=
  failing_env (fun c => bool_decide (c = trackCurrentTeams)).
Definition continue_fails_env : Env :=
  failing_env (fun c => bool_decide (c = continueAction)).

Definition fresh_state : AppState := mkAppState false false false None [] None.
Definition signed_state : AppState := mkAppState false false true None [] None.
Definition stale_state : AppState :=
  mkAppState false false true None [] (Some "abc").
Definition loaded_state : AppState := mkAppState true false true None [] None.

(** * Properties *)

(** ** [Object.assign] on a slot *)


Lemma Object_assign_keeps target source k :
  source !! k = None → Object_assign target source !! k = target !! k.
Proof.
  intros Hk. unfold Object_assign. rewrite lookup_union, lookup_fmap.
  assert (Hd : delete "__proto__" source !! k = None).
  { destruct (decide ("__proto__" = k)) as [<-|Hne].
    - apply lookup_delete_eq.
    - by rewrite lookup_delete_ne. }
  destruct (decide (is_Some (target !! "__proto__"))); rewrite ?Hk, ?Hd; cbn;
    by destruct (target !! k).
Qed.


(** ** What [createModals] builds *)

Lemma createModals_shape (ms : gmap string Modal.t) :
  (∀ n, state (createModals ms) !! n
        = match ms !! n with
          | Some m => Some (NSlot (c_state (createModal n m)))
          | None => ({[ "current" := NNull ]} : ModalsState) !! n
          end) ∧
  (∀ n, actions (createModals ms) !! n = mkActions n <$> ms !! n).
Proof.
  unfold createModals.
  apply (map_fold_weak_ind (fun (reg : Registry) (m : gmap string Modal.t) =>
    (∀ n, state reg !! n
          = match m !! n with
            | Some d => Some (NSlot (c_state (createModal n d)))
            | None => ({[ "current" := NNull ]} : ModalsState) !! n
            end) ∧
    (∀ n, actions reg !! n = mkActions n <$> m !! n))).
  - split; intros n; by rewrite !lookup_empty.
  - intros k d m reg Hk (Hs & Ha). cbn [state actions].
    split; intros n; destruct (decide (k = n)) as [->|Hne].
    + by rewrite !lookup_insert_eq.
    + rewrite !lookup_insert_ne by done. apply Hs.
    + by rewrite !lookup_insert_eq.
    + rewrite !lookup_insert_ne by done. apply Ha.
Qed.

Lemma createModals_state ms n :
  state (createModals ms) !! n
  = match ms !! n with
    | Some m => Some (NSlot (c_state (createModal n m)))
    | None => ({[ "current" := NNull ]} : ModalsState) !! n
    end.
Proof. apply createModals_shape. Qed.

Lemma createModals_actions ms n :
  actions (createModals ms) !! n = mkActions n <$> ms !! n.
Proof. apply createModals_shape. Qed.

Lemma createModal_flag n m :
  c_state (createModal n m) !! "isCurrent" = Some (Computed (derived n)).
Proof. cbn. apply lookup_insert_eq. Qed.

(** ** Promises *)

Lemma settle_length p v ps : length (settle p v ps) = length ps.
Proof.
  unfold settle. destruct (ps !! p) as [[]|]; try done. apply length_insert.
Qed.

Lemma settle_other p q v ps : p ≠ q → settle p v ps !! q = ps !! q.
Proof.
  intros Hne. unfold settle. destruct (ps !! p) as [[]|]; try done.
  by apply list_lookup_insert_ne.
Qed.

Lemma settle_pending p v ps :
  ps !! p = Some Pending → settle p v ps !! p = Some (Fulfilled v).
Proof.
  intros Hp. unfold settle. rewrite Hp.
  apply list_lookup_insert_eq. by eapply lookup_lt_Some.
Qed.

Lemma settle_fulfilled p v v' ps :
  ps !! p = Some (Fulfilled v') → settle p v ps = ps.
Proof. intros Hp. unfold settle. by rewrite Hp. Qed.


(** ** The two actions, unfolded *)

(** [open] makes one promise.  Either [Object.assign] threw: the promise is
    rejected, and besides it only [current] has changed; or the promise is
    pending and its resolving function is stored. *)
Lemma open_cases name modal newState w :
  (∃ st, open name modal newState w =
           (mkWorld st (resolver w) (promises w ++ [Rejected "TypeError"])
                    (resolve_log w),
            Refused (length (promises w)))) ∨
  (∃ st, open name modal newState w =
           (mkWorld st (<[name := length (promises w)]> (resolver w))
                    (promises w ++ [Pending]) (resolve_log w),
            Suspended (length (promises w)))).
Proof.
  unfold open.
  destruct (assign_at _ name (default ∅ newState)) as [st|]; cbn; eauto.
Qed.

Lemma open_suspended name modal newState w w1 p :
  open name modal newState w = (w1, Suspended p) →
  p = length (promises w) ∧
  resolver w1 = <[name := p]> (resolver w) ∧
  promises w1 = (promises w ++ [Pending])%list ∧
  resolve_log w1 = resolve_log w.
Proof.
  destruct (open_cases name modal newState w) as [[st ->]|[st ->]]; [done|].
  by intros [= <- <-].
Qed.

(** Whatever [open] does, the promises made before keep their place. *)
Lemma open_promises name modal newState w :
  ∃ new, promises (open name modal newState w).1 = (promises w ++ [new])%list.
Proof.
  destruct (open_cases name modal newState w) as [[st ->]|[st ->]]; cbn; eauto.
Qed.

Lemma open_promises_old name modal newState w p :
  p < length (promises w) →
  promises (open name modal newState w).1 !! p = promises w !! p.
Proof.
  intros Hlt. destruct (open_promises name modal newState w) as (new & ->).
  by apply lookup_app_l.
Qed.

Lemma open_promises_length name modal newState w :
  length (promises (open name modal newState w).1) = S (length (promises w)).
Proof.
  destruct (open_promises name modal newState w) as (new & ->).
  rewrite length_app. cbn. lia.
Qed.

(** On a modal that has its slot, [open] merges and suspends. *)
Lemma open_slot name modal newState w s :
  name ≠ "current" →
  modals w !! name = Some (NSlot s) →
  open name modal newState w =
    (mkWorld
       (<[name := NSlot (Object_assign s (default ∅ newState))]>
          (<["current" := NStr name]> (modals w)))
       (<[name := length (promises w)]> (resolver w))
       (promises w ++ [Pending])
       (resolve_log w),
     Suspended (length (promises w))).
Proof.
  intros Hne Hs. unfold open, assign_at.
  rewrite lookup_insert_ne by done. by rewrite Hs.
Qed.


Lemma open_modals_current modal newState w :
  modals (open "current" modal newState w).1
  = <["current" := NStr "current"]> (modals w).
Proof.
  unfold open, assign_at. rewrite lookup_insert_eq.
  by destruct (existsb _ _).
Qed.

Lemma close_unset name modal payload w :
  resolver w !! name = None →
  close name modal payload w =
    (mkWorld (<["current" := NNull]> (modals w)) (resolver w) (promises w)
             (resolve_log w), Returned).
Proof. intros Hr. unfold close. cbn. by rewrite Hr. Qed.

Lemma close_set name modal payload w p :
  resolver w !! name = Some p →
  close name modal payload w =
    (mkWorld (<["current" := NNull]> (modals w)) (resolver w)
             (settle p (js_or payload (get_result modal)) (promises w))
             (resolve_log w ++ [(p, js_or payload (get_result modal))]),
     Returned).
Proof. intros Hr. unfold close. cbn. by rewrite Hr. Qed.

Lemma close_modals name modal payload w :
  modals (close name modal payload w).1 = <["current" := NNull]> (modals w).
Proof. unfold close. cbn. by destruct (resolver w !! name). Qed.

(** A call on a registered name runs the action of that name. *)
Lemma dispatch_open ms n m newState w :
  ms !! n = Some m →
  dispatch (createModals ms) (Open n newState) w = open n m newState w.
Proof. intros Hn. cbn. by rewrite createModals_actions, Hn. Qed.

Lemma dispatch_close ms n m payload w :
  ms !! n = Some m →
  dispatch (createModals ms) (Close n payload) w = close n m payload w.
Proof. intros Hn. cbn. by rewrite createModals_actions, Hn. Qed.

Lemma dispatch_unregistered ms c w :
  ms !! call_name c = None →
  dispatch (createModals ms) c w = (w, Thrown "TypeError").
Proof. destruct c; cbn; intros Hn; by rewrite createModals_actions, Hn. Qed.

(** ** The invariant is kept by every call *)

Lemma inv_slot_registered ms w n m :
  Inv ms w → n ≠ "current" → ms !! n = Some m →
  ∃ s, modals w !! n = Some (NSlot s).
Proof.
  intros Hinv Hne Hn. pose proof (inv_slot _ _ Hinv n Hne) as H.
  by rewrite Hn in H.
Qed.

Section Invariant.
Context (ms : gmap string Modal.t).

Lemma start_inv : Inv ms (start (createModals ms)).
Proof.
  split; cbn [start modals resolver promises].
  - intros n Hne. rewrite createModals_state.
    destruct (ms !! n); [eauto|]. by rewrite lookup_singleton_ne.
  - rewrite createModals_state.
    destruct (ms !! "current") eqn:Hc.
    + split; [eauto|]. apply createModal_flag.
    + by rewrite lookup_singleton_eq.
  - intros n p. by rewrite lookup_empty.
  - intros n1 n2 p. by rewrite lookup_empty.
Qed.

(** The state tree after [open]: the register holds the name, and the slot
    of the name, if there is one, has taken the new state. *)
Lemma open_modals_inv n m newState w :
  ms !! n = Some m → Inv ms w →
  let st := <["current" := NStr n]> (modals w) in
  (n = "current" ∧ modals (open n m newState w).1 = st) ∨
  (n ≠ "current" ∧ ∃ s, modals w !! n = Some (NSlot s) ∧
     modals (open n m newState w).1
     = <[n := NSlot (Object_assign s (default ∅ newState))]> st).
Proof.
  intros Hn Hinv st. destruct (decide (n = "current")) as [->|Hne].
  - left. split; [done|]. apply open_modals_current.
  - right. split; [done|].
    destruct (inv_slot_registered _ _ _ _ Hinv Hne Hn) as (s & Hs).
    rewrite (open_slot _ _ _ _ _ Hne Hs). eauto.
Qed.

Lemma open_inv n m newState w :
  ms !! n = Some m → Inv ms w → Inv ms (open n m newState w).1.
Proof.
  intros Hn Hinv.
  pose proof (open_modals_inv n m newState w Hn Hinv) as Hst. cbn in Hst.
  destruct Hinv as [Hsl Hc Hb Hi].
  assert (Hres : ∀ k p, resolver (open n m newState w).1 !! k = Some p →
            (k = n ∧ p = length (promises w)) ∨ resolver w !! k = Some p).
  { intros k p. destruct (open_cases n m newState w) as [[st ->]|[st ->]]; cbn.
    - by right.
    - destruct (decide (n = k)) as [<-|Hne].
      + rewrite lookup_insert_eq. intros [= <-]. by left.
      + rewrite lookup_insert_ne by done. by right. }
  pose proof (open_promises_length n m newState w) as Hlen.
  split.
  - intros k Hk. specialize (Hsl k Hk).
    destruct Hst as [[_ ->]|(Hne & s & Hs & ->)].
    + by rewrite lookup_insert_ne.
    + destruct (decide (n = k)) as [<-|Hnk].
      * rewrite lookup_insert_eq, Hn. eauto.
      * rewrite !lookup_insert_ne by done. done.
  - destruct Hst as [[_ ->]|(Hne & s & Hs & ->)].
    + rewrite lookup_insert_eq. eauto.
    + rewrite lookup_insert_ne by done. rewrite lookup_insert_eq. eauto.
  - intros k p Hk. rewrite Hlen. destruct (Hres k p Hk) as [[Hkn Hp]|Hold].
    + lia.
    + apply Hb in Hold. lia.
  - intros k1 k2 p H1 H2.
    destruct (Hres k1 p H1) as [[Hk1 Hp1]|Hold1],
             (Hres k2 p H2) as [[Hk2 Hp2]|Hold2].
    + congruence.
    + apply Hb in Hold2. lia.
    + apply Hb in Hold1. lia.
    + by apply (Hi k1 k2 p).
Qed.

Lemma close_inv n m payload w :
  Inv ms w → Inv ms (close n m payload w).1.
Proof.
  intros [Hsl Hc Hb Hi].
  assert (Hr : resolver (close n m payload w).1 = resolver w)
    by (unfold close; cbn; by destruct (resolver w !! n)).
  assert (Hl : length (promises (close n m payload w).1) = length (promises w)).
  { unfold close; cbn. destruct (resolver w !! n); cbn; [|done].
    apply settle_length. }
  split; rewrite ?close_modals, ?Hr, ?Hl; try done.
  - intros k Hk. rewrite lookup_insert_ne by done. by apply Hsl.
  - by rewrite lookup_insert_eq.
Qed.

Lemma dispatch_inv c w : Inv ms w → Inv ms (dispatch (createModals ms) c w).1.
Proof.
  intros Hw. destruct c as [k ns|k payload]; cbn;
    rewrite createModals_actions; destruct (ms !! k) as [m|] eqn:Hk; cbn;
    auto using open_inv, close_inv.
Qed.

Lemma run_inv cs w : Inv ms w → Inv ms (run (createModals ms) cs w).
Proof.
  revert w. induction cs as [|c cs IH]; intros w Hw; [done|].
  cbn. apply IH. by apply dispatch_inv.
Qed.

Lemma reached_inv cs : Inv ms (reached ms cs).
Proof. apply run_inv, start_inv. Qed.


(** ** The derived flags, as long as no call assigns [isCurrent] *)

Lemma start_flags : Flags_derived (start (createModals ms)).
Proof.
  intros n s. cbn [start modals]. rewrite createModals_state.
  destruct (ms !! n) as [m|].
  - intros [= <-]. apply createModal_flag.
  - destruct (decide (n = "current")) as [->|Hne].
    + by rewrite lookup_singleton_eq.
    + by rewrite lookup_singleton_ne.
Qed.

Lemma open_flags n m newState w :
  ms !! n = Some m → Inv ms w → keeps_isCurrent (Open n newState) →
  Flags_derived w → Flags_derived (open n m newState w).1.
Proof.
  intros Hn Hinv Hkeep Hw k s.
  assert (Hns : default ∅ newState !! "isCurrent" = None).
  { destruct newState as [ns|]; [exact Hkeep|apply lookup_empty]. }
  destruct (open_modals_inv n m newState w Hn Hinv)
    as [[-> ->]|(Hne & s0 & Hs0 & ->)].
  - destruct (decide ("current" = k)) as [<-|Hk].
    + by rewrite lookup_insert_eq.
    + rewrite lookup_insert_ne by done. apply Hw.
  - destruct (decide (n = k)) as [<-|Hk].
    + rewrite lookup_insert_eq. intros [= <-].
      rewrite Object_assign_keeps by done. by apply Hw.
    + rewrite lookup_insert_ne by done.
      destruct (decide ("current" = k)) as [<-|Hc].
      * by rewrite lookup_insert_eq.
      * rewrite lookup_insert_ne by done. apply Hw.
Qed.

Lemma close_flags n m payload w :
  Flags_derived w → Flags_derived (close n m payload w).1.
Proof.
  intros Hw k s. rewrite close_modals.
  destruct (decide ("current" = k)) as [<-|Hc].
  - by rewrite lookup_insert_eq.
  - rewrite lookup_insert_ne by done. apply Hw.
Qed.

Lemma dispatch_flags c w :
  Inv ms w → keeps_isCurrent c → Flags_derived w →
  Flags_derived (dispatch (createModals ms) c w).1.
Proof.
  intros Hinv Hkeep Hw. destruct c as [k ns|k payload]; cbn;
    rewrite createModals_actions; destruct (ms !! k) as [m|] eqn:Hk; cbn;
    auto using open_flags, close_flags.
Qed.

Lemma run_flags cs w :
  Inv ms w → Forall keeps_isCurrent cs → Flags_derived w →
  Flags_derived (run (createModals ms) cs w).
Proof.
  revert w. induction cs as [|c cs IH]; intros w Hinv Hcs Hw; [done|].
  apply Forall_cons in Hcs as [Hc Hcs].
  cbn. apply IH; [by apply dispatch_inv|done|by apply dispatch_flags].
Qed.

Lemma reached_flags cs :
  Forall keeps_isCurrent cs → Flags_derived (reached ms cs).
Proof. intros Hcs. apply run_flags; [apply start_inv|done|apply start_flags]. Qed.
End Invariant.

(** Reading the flag of a slot that still has the derived one. *)
Lemma read_isCurrent_derived w n s :
  Flags_derived w → modals w !! n = Some (NSlot s) →
  read_isCurrent (modals w) n
  = Some (VBool (read_derived (derived n) (modals w))).
Proof.
  intros Hw Hs. unfold read_isCurrent. by rewrite Hs, (Hw n s Hs).
Qed.

(** ** The claims about [open] and [close] *)







(** C3 (defect in the code): the register [current] and the slots of the
    modals are properties of one object, and nothing keeps a modal from
    being named [current].  [open] of such a modal assigns its name to the
    property that held its slot; [isCurrent] of the modal then reads
    [undefined] where the claim says [true]. *)
Theorem C3_modal_named_current_reads_undefined :
  let reg := createModals clash_modals in
  let r1 := dispatch reg (Open "current" None) (start reg) in
  r1.2 = Suspended 0 ∧
  r1.1.(modals) !! "current" = Some (NStr "current") ∧
  read_isCurrent r1.1.(modals) "current" = Some VUndefined.
Proof. cbv zeta. split_and!; try (vm_compute; reflexivity). Qed.

(** C4: for every registered modal name [n] and whatever [current] holds
    before (another modal's name, [n] itself or [null]), [close(n)] leaves
    [current] at [null]; nothing in [close] compares [n] with [current]. *)
Theorem C4_close_clears_current ms n m payload (w : World) :
  ms !! n = Some m →
  ∃ w1,
    dispatch (createModals ms) (Close n payload) w = (w1, Returned) ∧
    modals w1 !! "current" = Some NNull.
Proof.
  intros Hn. rewrite (dispatch_close ms n m) by done.
  destruct (resolver w !! n) as [p|] eqn:Hr.
  - rewrite (close_set _ _ _ _ _ Hr). eexists. split; [done|].
    apply lookup_insert_eq.
  - rewrite (close_unset _ _ _ _ Hr). eexists. split; [done|].
    apply lookup_insert_eq.
Qed.

Lemma C4_close_clears_current_witness :
  ∃ w1,
    dispatch (createModals example_modals) (Close "forkFrozenModal" VUndefined)
             (reached example_modals [Open "moveSandboxModal" None])
      = (w1, Returned) ∧
    modals w1 !! "current" = Some NNull.
Proof.
  apply (C4_close_clears_current example_modals "forkFrozenModal"
           (Modal.mk None (Some (VStr "fork"))) VUndefined).
  vm_compute. reflexivity.
Defined.



(** C5 (defect in the code): for a modal named [current], [open] assigns the
    name to [state.modals.current] first, which is where the slot of that
    modal was; [Object.assign] then has the string for its target.  The
    fields the modal had are gone and the new ones are not kept, where the
    claim says they are merged.  The same shared property as in C3. *)
Theorem C5_modal_named_current_loses_state :
  let reg := createModals clash_modals in
  let r1 := dispatch reg (Open "current" (Some {[ "a" := VNum 1 ]})) (start reg) in
  sub_state (modals (start reg)) "current"
    = Some {[ "x" := Plain (VNum 1);
              "isCurrent" := Computed (derived "current") ]} ∧
  r1.2 = Suspended 0 ∧
  modals r1.1 !! "current" = Some (NStr "current") ∧
  sub_state (modals r1.1) "current" = None.
Proof. cbv zeta. split_and!; try (vm_compute; reflexivity). Qed.

(** ** Promises nobody can resolve any more *)

Section Orphans.
Context (reg : Registry) (p : nat).

Lemma open_owned n name modal newState w :
  Owned p n w → Owned p n (open name modal newState w).1.
Proof.
  intros [Hlt Hown]. unfold Owned. rewrite open_promises_length.
  split; [lia|].
  destruct (open_cases name modal newState w) as [[st ->]|[st ->]]; cbn;
    [done|].
  intros k. destruct (decide (name = k)) as [<-|Hne].
  - rewrite lookup_insert_eq. intros [= Heq]. lia.
  - rewrite lookup_insert_ne by done. apply Hown.
Qed.

Lemma close_owned n name modal payload w :
  Owned p n w → Owned p n (close name modal payload w).1.
Proof.
  intros [Hlt Hown]. unfold Owned, close. cbn.
  destruct (resolver w !! name) as [q|]; cbn; [|done].
  split; [by rewrite settle_length|done].
Qed.

Lemma dispatch_owned n c w : Owned p n w → Owned p n (dispatch reg c w).1.
Proof.
  intros Hw. destruct c as [k ns|k payload]; cbn;
    destruct (actions reg !! k); cbn; auto using open_owned, close_owned.
Qed.





End Orphans.



(** Only [open] of [n] assigns the [resolver] of [n]. *)
Lemma dispatch_resolver_other ms c w n :
  (∀ newState, c ≠ Open n newState) →
  resolver (dispatch (createModals ms) c w).1 !! n = resolver w !! n.
Proof.
  intros Hc. destruct c as [k ns|k payload]; cbn;
    rewrite createModals_actions; destruct (ms !! k) as [m|]; cbn; try done.
  - assert (k ≠ n) by (intros ->; by apply (Hc ns)).
    destruct (open_cases k m ns w) as [[st ->]|[st ->]]; cbn; [done|].
    by rewrite lookup_insert_ne.
  - unfold close. cbn. by destruct (resolver w !! k).
Qed.

Lemma run_resolver_unset ms cs w n :
  (∀ newState, Open n newState ∉ cs) →
  resolver w !! n = None →
  resolver (run (createModals ms) cs w) !! n = None.
Proof.
  revert w. induction cs as [|c cs IH]; intros w Hcs Hw; [done|].
  cbn. apply IH.
  - intros ns Hin. apply (Hcs ns). by right.
  - rewrite dispatch_resolver_other; [done|].
    intros ns ->. apply (Hcs ns). by left.
Qed.

Lemma reached_resolver_unset ms cs n :
  (∀ newState, Open n newState ∉ cs) → resolver (reached ms cs) !! n = None.
Proof. intros Hcs. by apply run_resolver_unset. Qed.

(** C7: for every registered modal name [n], [close(n)] on a registry on
    which [open(n)] has not been called (a freshly built one in particular)
    completes without error, calls no resolving function and settles no
    promise, and leaves [current] at [null]. *)
Theorem C7_close_without_open ms n m cs payload :
  ms !! n = Some m →
  (∀ newState, Open n newState ∉ cs) →
  ∃ w1,
    dispatch (createModals ms) (Close n payload) (reached ms cs)
      = (w1, Returned) ∧
    resolve_log w1 = resolve_log (reached ms cs) ∧
    promises w1 = promises (reached ms cs) ∧
    modals w1 !! "current" = Some NNull.
Proof.
  intros Hn Hcs. rewrite (dispatch_close ms n m) by done.
  rewrite (close_unset _ _ _ _ (reached_resolver_unset ms cs n Hcs)).
  eexists. repeat (split; [done|]). apply lookup_insert_eq.
Qed.

Lemma C7_close_without_open_witness :
  ∃ w1,
    dispatch (createModals example_modals) (Close "forkFrozenModal" VUndefined)
             (reached example_modals []) = (w1, Returned) ∧
    resolve_log w1 = [] ∧ promises w1 = [] ∧
    modals w1 !! "current" = Some NNull.
Proof.
  apply (C7_close_without_open example_modals "forkFrozenModal"
           (Modal.mk None (Some (VStr "fork"))) [] VUndefined eq_refl).
  intros newState Hin. by apply not_elem_of_nil in Hin.
Defined.

(** C8 (defect in the code): the reduce in [createModals] starts from
    [{ current: null }] and assigns the slot of every modal to the property
    of its name.  For a modal named [current] that assignment replaces the
    register: right after construction [current] holds the sub-state of
    that modal, neither [null] nor a name.  The same shared property as in
    C3. *)
Theorem C8_modal_named_current_overwrites_register :
  modals (reached clash_modals []) !! "current"
    = Some (NSlot {[ "x" := Plain (VNum 1);
                     "isCurrent" := Computed (derived "current") ]}) ∧
  modals (reached clash_modals []) !! "current" ≠ Some NNull ∧
  ∀ n, modals (reached clash_modals []) !! "current" ≠ Some (NStr n).
Proof.
  split_and!; [vm_compute; reflexivity|vm_compute; discriminate|].
  intros n. vm_compute. discriminate.
Qed.





(** C10 (defect in the code): [open] of a modal assigns its name to
    [state.modals.current].  When another modal is named [current], that
    property is where its sub-state was: the call on one modal has destroyed
    the sub-state of the other, where the claim says it is left unchanged.
    The same shared property as in C3. *)
Theorem C10_open_overwrites_modal_named_current :
  let reg := createModals clash_modals in
  let r1 := dispatch reg (Open "forkFrozenModal" None) (start reg) in
  sub_state (modals (start reg)) "current"
    = Some {[ "x" := Plain (VNum 1);
              "isCurrent" := Computed (derived "current") ]} ∧
  r1.2 = Suspended 0 ∧
  modals r1.1 !! "current" = Some (NStr "forkFrozenModal") ∧
  sub_state (modals r1.1) "current" = None.
Proof. cbv zeta. split_and!; try (vm_compute; reflexivity). Qed.

(** * Further properties of the registry *)

(** X1: [createModals] gives the result one property per key of the
    definition map and nothing else: the own properties of the actions are
    the keys of the map, those of the state tree these keys and [current].
    The key [__proto__] is no property of either: for it the two
    assignments of the reduce set the prototypes, to the slot and to the
    actions of that modal. *)
Theorem X1_createModals_domains (ms : gmap string Modal.t) :
  Object_keys (actions (createModals ms)) = dom ms ∖ {[ "__proto__" ]} ∧
  Object_keys (state (createModals ms))
    = ({[ "current" ]} ∪ dom ms) ∖ {[ "__proto__" ]} ∧
  ∀ m, ms !! "__proto__" = Some m →
       state (createModals ms) !! "__proto__"
         = Some (NSlot (c_state (createModal "__proto__" m))) ∧
       actions (createModals ms) !! "__proto__"
         = Some (c_actions (createModal "__proto__" m)).
Proof.
  assert (Ha : dom (actions (createModals ms)) = dom ms).
  { apply set_eq; intros n. rewrite !elem_of_dom, createModals_actions.
    by rewrite fmap_is_Some. }
  assert (Hs : dom (state (createModals ms)) = {[ "current" ]} ∪ dom ms).
  { apply set_eq; intros n.
    rewrite elem_of_union, !elem_of_dom, createModals_state, elem_of_singleton.
    destruct (ms !! n) as [m|] eqn:Hn.
    - split; eauto.
    - destruct (decide (n = "current")) as [->|Hne].
      + rewrite lookup_singleton_eq. split; eauto.
      + rewrite lookup_singleton_ne by done.
        split; [intros []; done|intros [?|[]]; done]. }
  unfold Object_keys. rewrite Ha, Hs. split; [done|]. split; [done|].
  intros m Hm. by rewrite createModals_state, createModals_actions, Hm.
Qed.

Lemma X1_createModals_domains_witness :
  Object_keys (actions (createModals proto_modals)) = {[ "forkFrozenModal" ]} ∧
  Object_keys (state (createModals proto_modals))
    = {[ "current"; "forkFrozenModal" ]}.
Proof.
  destruct (X1_createModals_domains proto_modals) as (Ha & Hs & _).
  rewrite Ha, Hs. split; apply set_eq; intros n; vm_compute; tauto.
Defined.



(** A call never changes a fulfilled promise. *)
Lemma dispatch_fulfilled_stays reg c w p v :
  promises w !! p = Some (Fulfilled v) →
  promises (dispatch reg c w).1 !! p = Some (Fulfilled v).
Proof.
  intros Hp. pose proof (lookup_lt_Some _ _ _ Hp) as Hlt.
  destruct c as [k ns|k payload]; cbn;
    destruct (actions reg !! k) as [a|]; cbn; try done.
  - by rewrite open_promises_old.
  - unfold close. cbn. destruct (resolver w !! act_name a) as [q|]; cbn; [|done].
    destruct (decide (q = p)) as [->|Hne].
    + by rewrite (settle_fulfilled _ _ _ _ Hp).
    + by rewrite settle_other.
Qed.

Lemma run_fulfilled_stays reg cs w p v :
  promises w !! p = Some (Fulfilled v) →
  promises (run reg cs w) !! p = Some (Fulfilled v).
Proof.
  revert w. induction cs as [|c cs IH]; intros w Hw; [done|].
  cbn. by apply IH, dispatch_fulfilled_stays.
Qed.











(** X4: closing another modal than the open one hides the open one without
    answering it.  After [open(n)], [close(k)] with [k] different from [n]
    leaves [current] at [null] and the suspension of [n] pending; a later
    [close(n, x)] still fulfils it. *)
Theorem X4_mismatched_close_keeps_suspension
    ms n k mn mk cs newState payload x w1 p :
  ms !! n = Some mn → ms !! k = Some mk → n ≠ k →
  dispatch (createModals ms) (Open n newState) (reached ms cs)
    = (w1, Suspended p) →
  ∃ w2 w3,
    dispatch (createModals ms) (Close k payload) w1 = (w2, Returned) ∧
    modals w2 !! "current" = Some NNull ∧
    promises w2 !! p = Some Pending ∧
    dispatch (createModals ms) (Close n x) w2 = (w3, Returned) ∧
    promises w3 !! p = Some (Fulfilled (js_or x (get_result mn))).
Proof.
  intros Hn Hk Hne. rewrite (dispatch_open ms n mn) by done. intros Ho.
  pose proof (reached_inv ms cs) as Hinv.
  destruct (open_suspended _ _ _ _ _ _ Ho) as (-> & Hr & Hp & _).
  set (p := length (promises (reached ms cs))) in *.
  assert (Hpend : promises w1 !! p = Some Pending).
  { rewrite Hp, lookup_app_r by lia. by rewrite Nat.sub_diag. }
  rewrite (dispatch_close ms k mk) by done.
  assert (Hw2 : ∃ w2, close k mk payload w1 = (w2, Returned) ∧
            modals w2 !! "current" = Some NNull ∧
            promises w2 !! p = Some Pending ∧ resolver w2 = resolver w1).
  { destruct (resolver w1 !! k) as [q|] eqn:Hq.
    - rewrite (close_set _ _ _ _ _ Hq). eexists. split; [done|]. cbn.
      split; [apply lookup_insert_eq|]. split; [|done].
      rewrite settle_other; [done|]. intros ->.
      rewrite Hr, lookup_insert_ne in Hq by done.
      apply (inv_res_bound _ _ Hinv) in Hq. lia.
    - rewrite (close_unset _ _ _ _ Hq). eexists. split; [done|]. cbn.
      split; [apply lookup_insert_eq|done]. }
  destruct Hw2 as (w2 & -> & Hcur & Hpend2 & Hr2).
  exists w2. eexists. repeat (split; [done|]).
  rewrite (dispatch_close ms n mn) by done.
  rewrite (close_set _ _ _ _ p) by (rewrite Hr2, Hr; apply lookup_insert_eq).
  split; [done|]. cbn. by apply settle_pending.
Qed.

Lemma X4_mismatched_close_keeps_suspension_witness :
  ∃ w2 w3,
    dispatch (createModals example_modals) (Close "moveSandboxModal" VUndefined)
      (reached example_modals [Open "forkFrozenModal" None]) = (w2, Returned) ∧
    modals w2 !! "current" = Some NNull ∧
    promises w2 !! 0 = Some Pending ∧
    dispatch (createModals example_modals)
      (Close "forkFrozenModal" (VStr "cancel")) w2 = (w3, Returned) ∧
    promises w3 !! 0 = Some (Fulfilled (VStr "cancel")).
Proof.
  apply (X4_mismatched_close_keeps_suspension example_modals
           "forkFrozenModal" "moveSandboxModal"
           (Modal.mk None (Some (VStr "fork")))
           (Modal.mk (Some {[ "defaultOpenedDirectory" := VNull ]}) None)
           [] None VUndefined (VStr "cancel")).
  - reflexivity.
  - reflexivity.
  - discriminate.
  - vm_compute. reflexivity.
Defined.



(** A call other than [open] of [n] leaves the node of [n] as it is. *)
Lemma dispatch_node_other ms c w n :
  Inv ms w → n ≠ "current" → (∀ newState, c ≠ Open n newState) →
  modals (dispatch (createModals ms) c w).1 !! n = modals w !! n.
Proof.
  intros Hinv Hne Hc. destruct c as [k ns|k payload]; cbn;
    rewrite createModals_actions; destruct (ms !! k) as [m|] eqn:Hk; cbn;
    try done.
  - assert (k ≠ n) by (intros ->; by apply (Hc ns)).
    destruct (open_modals_inv ms k m ns w Hk Hinv)
      as [[_ ->]|(_ & s & _ & ->)]; by rewrite !lookup_insert_ne.
  - rewrite close_modals. by rewrite lookup_insert_ne.
Qed.

(** X6: the sub-state of a modal other than [current] changes through
    [open] of that modal only: any sequence of calls without one leaves it
    as it is, closes of the modal included. *)
Theorem X6_sub_state_changes_by_own_open_only ms n cs cs' :
  n ≠ "current" →
  (∀ newState, Open n newState ∉ cs') →
  sub_state (modals (run (createModals ms) cs' (reached ms cs))) n
  = sub_state (modals (reached ms cs)) n.
Proof.
  intros Hne. pose proof (reached_inv ms cs) as Hinv.
  revert Hinv. generalize (reached ms cs). 
  induction cs' as [|c cs' IH]; intros w Hinv Hcs; [done|].
  change (run (createModals ms) (c :: cs') w)
    with (run (createModals ms) cs' (dispatch (createModals ms) c w).1).
  rewrite IH.
  - unfold sub_state. rewrite dispatch_node_other; try done.
    intros ns ->. apply (Hcs ns). by left.
  - by apply dispatch_inv.
  - intros ns Hin. apply (Hcs ns). by right.
Qed.

Lemma X6_sub_state_changes_by_own_open_only_witness :
  sub_state
    (modals
       (run (createModals example_modals)
          [Close "moveSandboxModal" VUndefined; Open "forkFrozenModal" None]
          (reached example_modals
             [Open "moveSandboxModal" (Some {[ "a" := VNum 1 ]})])))
    "moveSandboxModal"
  = sub_state
      (modals (reached example_modals
                 [Open "moveSandboxModal" (Some {[ "a" := VNum 1 ]})]))
      "moveSandboxModal".
Proof.
  apply (X6_sub_state_changes_by_own_open_only example_modals
           "moveSandboxModal"
           [Open "moveSandboxModal" (Some {[ "a" := VNum 1 ]})]
           [Close "moveSandboxModal" VUndefined; Open "forkFrozenModal" None]).
  - discriminate.
  - intros newState Hin. apply elem_of_cons in Hin as [?|Hin]; [done|].
    apply list_elem_of_singleton in Hin. discriminate.
Defined.



(** X8: with [moveSandboxModal] registered, reading its flag in
    [pages/index.tsx] never throws; and as long as no [open] was given a
    new state with a property [isCurrent], [MoveSandboxFolderModal] is
    rendered exactly while [current] is ["moveSandboxModal"], and after
    [close] of any registered modal it is not rendered. *)
Theorem X8_move_modal_rendered_iff_current ms m cs :
  ms !! "moveSandboxModal" = Some m →
  let root := modals (reached ms cs) in
  is_Some (renders_MoveSandboxFolderModal root) ∧
  (Forall keeps_isCurrent cs →
   (renders_MoveSandboxFolderModal root = Some true
    ↔ root !! "current" = Some (NStr "moveSandboxModal")) ∧
   ∀ k mk payload,
     ms !! k = Some mk →
     renders_MoveSandboxFolderModal
       (modals (dispatch (createModals ms) (Close k payload) (reached ms cs)).1)
     = Some false).
Proof.
  intros Hm root. subst root.
  assert (Hne : "moveSandboxModal" ≠ "current") by discriminate.
  destruct (inv_slot_registered _ _ _ _ (reached_inv ms cs) Hne Hm)
    as (s & Hs).
  split.
  { unfold renders_MoveSandboxFolderModal, read_isCurrent. rewrite Hs.
    destruct (s !! "isCurrent") as [[]|]; cbn; eauto. }
  intros Hcs. pose proof (reached_flags ms cs Hcs) as Hfl. split.
  - unfold renders_MoveSandboxFolderModal.
    rewrite (read_isCurrent_derived _ _ _ Hfl Hs). unfold read_derived.
    destruct (modals (reached ms cs) !! "current") as [[|c|]|]; cbn; split;
      try done.
    + intros [= Hb]. apply bool_decide_eq_true_1 in Hb. by subst.
    + intros [= ->]. by rewrite bool_decide_eq_true_2.
  - intros k mk payload Hk.
    set (w1 := (dispatch (createModals ms) (Close k payload) (reached ms cs)).1).
    assert (Hinv1 : Inv ms w1) by apply dispatch_inv, reached_inv.
    assert (Hfl1 : Flags_derived w1)
      by (apply dispatch_flags; [apply reached_inv|done|done]).
    destruct (inv_slot_registered _ _ _ _ Hinv1 Hne Hm) as (s1 & Hs1).
    unfold renders_MoveSandboxFolderModal.
    rewrite (read_isCurrent_derived _ _ _ Hfl1 Hs1). unfold read_derived.
    subst w1. rewrite (dispatch_close ms k mk) by done.
    by rewrite close_modals, lookup_insert_eq.
Qed.

Lemma X8_move_modal_rendered_iff_current_witness :
  renders_MoveSandboxFolderModal
    (modals (reached example_modals [Open "moveSandboxModal" None]))
  = Some true ∧
  renders_MoveSandboxFolderModal
    (modals
       (dispatch (createModals example_modals)
          (Close "forkFrozenModal" VUndefined)
          (reached example_modals [Open "moveSandboxModal" None])).1)
  = Some false.
Proof.
  destruct (X8_move_modal_rendered_iff_current example_modals
              (Modal.mk (Some {[ "defaultOpenedDirectory" := VNull ]}) None)
              [Open "moveSandboxModal" None] eq_refl) as [_ H].
  destruct H as [Hiff Hclose]; [repeat constructor|].
  split.
  - apply Hiff. vm_compute. reflexivity.
  - apply (Hclose "forkFrozenModal" (Modal.mk None (Some (VStr "fork")))).
    reflexivity.
Defined.

(** ** What the claims say, away from the name [current] *)





(** X29: when no modal is named [current], [current] is, in every world
    reached from a newly built registry by [open] and [close] calls,
    [null] or a name of the definition map; calls on names that are not in
    the map included, which fail and change nothing. *)
Theorem X29_current_is_null_or_registered ms cs :
  ms !! "current" = None →
  modals (reached ms cs) !! "current" = Some NNull ∨
  ∃ n, modals (reached ms cs) !! "current" = Some (NStr n) ∧ n ∈ dom ms.
Proof.
  intros Hno. pose proof (inv_current _ _ (reached_inv ms cs)) as H.
  destruct (modals (reached ms cs) !! "current") as [[|n|s]|] eqn:Hcur.
  - by left.
  - right. exists n. split; [done|]. by apply elem_of_dom.
  - destruct H as [[? ?] _]. congruence.
  - done.
Qed.

Lemma X29_current_is_null_or_registered_witness :
  modals (reached example_modals
            [Open "moveSandboxModal" None; Open "nobody" None])
    !! "current" = Some (NStr "moveSandboxModal").
Proof.
  destruct (X29_current_is_null_or_registered example_modals
              [Open "moveSandboxModal" None; Open "nobody" None] eq_refl)
    as [H|(n & H & _)].
  - vm_compute in H. discriminate H.
  - vm_compute. reflexivity.
Defined.

(** X30: an [open] or [close] call on [n] leaves the [resolver] of every
    other modal name [k] as it was, together with the promise that the
    resolver of [k] stands for, and, when [k] is not [current], what
    [state.modals] holds for [k]. *)
Theorem X30_other_modals_untouched ms cs c k :
  call_name c ≠ k →
  let w := reached ms cs in
  let w' := (dispatch (createModals ms) c w).1 in
  (k ≠ "current" → modals w' !! k = modals w !! k) ∧
  resolver w' !! k = resolver w !! k ∧
  ∀ q, resolver w !! k = Some q → promises w' !! q = promises w !! q.
Proof.
  intros Hne w w'. subst w'.
  pose proof (reached_inv ms cs) as Hinv. fold w in Hinv.
  destruct c as [n ns|n payload]; cbn in Hne |- *;
    rewrite createModals_actions; destruct (ms !! n) as [m|] eqn:Hn; cbn;
    try done.
  - split; [|split].
    + intros Hk. destruct (open_modals_inv ms n m ns w Hn Hinv)
        as [[_ ->]|(_ & s & _ & ->)]; by rewrite !lookup_insert_ne.
    + destruct (open_cases n m ns w) as [[st ->]|[st ->]]; cbn; [done|].
      by rewrite lookup_insert_ne.
    + intros q Hq. apply (inv_res_bound _ _ Hinv) in Hq.
      by apply open_promises_old.
  - rewrite close_modals. split; [intros Hk; by rewrite lookup_insert_ne|].
    unfold close. cbn. destruct (resolver w !! n) as [p|] eqn:Hp; cbn; [|done].
    split; [done|]. intros q Hq. apply settle_other. intros ->.
    apply Hne. by apply (inv_res_inj _ _ Hinv n k q).
Qed.

Lemma X30_other_modals_untouched_witness :
  let w := reached clash_modals [Open "current" None] in
  let w' := (dispatch (createModals clash_modals)
               (Close "forkFrozenModal" VUndefined) w).1 in
  resolver w' !! "current" = resolver w !! "current" ∧
  ∀ q, resolver w !! "current" = Some q →
       promises w' !! q = promises w !! q.
Proof.
  destruct (X30_other_modals_untouched clash_modals [Open "current" None]
              (Close "forkFrozenModal" VUndefined) "current"
              ltac:(discriminate)) as (_ & Hr & Hp).
  split; [exact Hr|exact Hp].
Defined.

(** * [withOwnedSandbox] *)

(** Permissions as levels, for the examples: a level grants every lower
    one. *)
Definition level_hasPermission (have required : nat) : bool :=
  Nat.leb required have.

(** An editor whose sandbox the user owns, frozen, in a frozen session. *)
Definition frozen_editor : Editor nat :=
  mkEditor (Some (mkSandbox "abc12" true 3 true)) false true.

(** An editor showing somebody else's sandbox. *)
Definition foreign_editor : Editor nat :=
  mkEditor (Some (mkSandbox "xyz89" false 0 true)) false true.

#[local] Set Warnings "-clear-no-such-hyp".

(** Case analysis over the paths of a flow. *)
Ltac flow_cases :=
  unfold withOwnedSandbox, after_modal;
  repeat (cbn [play]; first [case_decide | case_match]); cbn [play];
  repeat match goal with
  | H : _ && _ = true |- _ => apply andb_prop in H as [? ?]
  | H : _ && _ = false |- _ => apply andb_false_iff in H as [?|?]
  end; simplify_eq.

Ltac in_list := rewrite ?elem_of_cons, ?elem_of_nil.

Section WithOwnedSandbox.
Context {P : Type} (hasPermission : P → P → bool).
Context (requiredPermission : option P) (editor : Editor P).
Context (fork_ok : string → bool) (modalResponse : value).

(** X9: [withOwnedSandbox] calls [forkSandbox] at most once in a run, with
    the id of the current sandbox, and exactly in two situations: the
    permission is missing and no fork is under way, or the permission is
    there, sandbox and session are frozen and the modal was answered
    ['fork']. *)
Theorem X9_fork_exactly_when sandboxId ok :
  let tr := play fork_ok modalResponse
              (withOwnedSandbox hasPermission requiredPermission editor) in
  (EvFork sandboxId ok ∈ tr ↔
   ∃ sandbox,
     currentSandbox editor = Some sandbox ∧
     sandboxId = sandbox_id sandbox ∧ ok = fork_ok sandboxId ∧
     ((lacks_permission hasPermission requiredPermission sandbox = true ∧
       isForkingSandbox editor = false) ∨
      (lacks_permission hasPermission requiredPermission sandbox = false ∧
       isFrozen sandbox = true ∧ sessionFrozen editor = true ∧
       modalResponse = VStr "fork"))) ∧
  (∀ i j id1 ok1 id2 ok2,
     tr !! i = Some (EvFork id1 ok1) → tr !! j = Some (EvFork id2 ok2) → i = j).
Proof.
  intros tr. subst tr. split.
  - flow_cases; in_list.
    all: split;
      [ intros Hin; destruct_or!; try done; simplify_eq;
        eexists; split_and!; try done; try congruence; eauto
      | intros (sb & Hs & -> & -> & Hcase); simplify_eq;
        destruct_or!; destruct_and!; simplify_eq; try congruence;
        first [left; congruence | right; left; congruence
              | right; right; left; congruence] ].
  - intros i j id1 ok1 id2 ok2. flow_cases.
    all: destruct i as [|[|[|i]]]; cbn; rewrite ?lookup_nil; try done;
      destruct j as [|[|[|j]]]; cbn; rewrite ?lookup_nil; done.
Qed.

(** X10: when the permission for the current sandbox is missing,
    [withOwnedSandbox] neither opens the modal nor touches [sessionFrozen],
    and [continueAction] runs only after a fork that resolved; while a fork
    is already under way it does not run. *)
Theorem X10_no_permission_no_unforked_continue sandbox :
  currentSandbox editor = Some sandbox →
  lacks_permission hasPermission requiredPermission sandbox = true →
  let tr := play fork_ok modalResponse
              (withOwnedSandbox hasPermission requiredPermission editor) in
  (∀ r, EvModal r ∉ tr) ∧
  (∀ b, EvSessionFrozen b ∉ tr) ∧
  (EvContinue ∈ tr →
   isForkingSandbox editor = false ∧ EvFork (sandbox_id sandbox) true ∈ tr).
Proof.
  intros Hs Hl tr. subst tr. unfold withOwnedSandbox. rewrite Hs, Hl.
  destruct (isForkingSandbox editor);
    repeat (cbn [play]; case_match); cbn [play];
    (split_and!; [intros r Hin|intros b Hin|intros Hin]);
    revert Hin; in_list; naive_solver.
Qed.

(** X11: when [forkSandbox] rejects, [withOwnedSandbox] ends with
    [cancelAction] and never runs [continueAction]. *)
Theorem X11_failed_fork_cancels sandboxId :
  let tr := play fork_ok modalResponse
              (withOwnedSandbox hasPermission requiredPermission editor) in
  EvFork sandboxId false ∈ tr →
  last tr = Some EvCancel ∧ EvContinue ∉ tr.
Proof.
  intros tr. subst tr. flow_cases; in_list; cbn; naive_solver.
Qed.

(** X12: [withOwnedSandbox] opens [forkFrozenModal] exactly when there is
    a current sandbox, the permission is there, the sandbox is frozen and
    the session is frozen. *)
Theorem X12_modal_asked_exactly_when :
  let tr := play fork_ok modalResponse
              (withOwnedSandbox hasPermission requiredPermission editor) in
  (∃ r, EvModal r ∈ tr) ↔
  ∃ sandbox,
    currentSandbox editor = Some sandbox ∧
    lacks_permission hasPermission requiredPermission sandbox = false ∧
    isFrozen sandbox = true ∧ sessionFrozen editor = true.
Proof.
  intros tr. subst tr. flow_cases.
  all: split;
    [ intros [r Hin]; revert Hin; in_list; intros Hin; destruct_or!;
      try done; simplify_eq; eexists; split_and!; try done; congruence
    | intros (sb & Hs & ? & ? & ?); simplify_eq; try congruence;
      eexists; in_list; by left ].
Qed.

(** X13: [withOwnedSandbox] writes [sessionFrozen] only to [false] and only
    when the modal was answered ['unfreeze']; the run is then the modal, the
    write and [continueAction], without a fork. *)
Theorem X13_unfreeze_only_on_request b :
  let tr := play fork_ok modalResponse
              (withOwnedSandbox hasPermission requiredPermission editor) in
  EvSessionFrozen b ∈ tr →
  b = false ∧ modalResponse = VStr "unfreeze" ∧
  tr = [EvModal (VStr "unfreeze"); EvSessionFrozen false; EvContinue].
Proof.
  intros tr. subst tr. flow_cases; in_list; naive_solver.
Qed.

(** X14: when the modal is answered by anything but ['fork'], ['unfreeze']
    or ['cancel'] ([undefined] for one), [withOwnedSandbox] runs
    [continueAction] with the session still frozen and without a fork. *)
Theorem X14_other_answer_continues_frozen sandbox :
  currentSandbox editor = Some sandbox →
  lacks_permission hasPermission requiredPermission sandbox = false →
  isFrozen sandbox = true → sessionFrozen editor = true →
  modalResponse ≠ VStr "fork" → modalResponse ≠ VStr "unfreeze" →
  modalResponse ≠ VStr "cancel" →
  play fork_ok modalResponse
       (withOwnedSandbox hasPermission requiredPermission editor)
  = [EvModal modalResponse; EvContinue].
Proof.
  intros Hs Hl Hf Hsf H1 H2 H3. unfold withOwnedSandbox, after_modal.
  rewrite Hs, Hl, Hf, Hsf. cbn [andb play]. by repeat case_decide.
Qed.
End WithOwnedSandbox.

Lemma X9_fork_exactly_when_witness :
  EvFork "xyz89" true
    ∈ play (fun _ => true) VUndefined
        (withOwnedSandbox level_hasPermission None foreign_editor).
Proof.
  apply (X9_fork_exactly_when level_hasPermission None foreign_editor
           (fun _ => true) VUndefined "xyz89" true).
  exists (mkSandbox "xyz89" false 0 true). repeat split. by left.
Defined.

Lemma X10_no_permission_no_unforked_continue_witness :
  EvFork "xyz89" true
    ∈ play (fun _ => true) VUndefined
        (withOwnedSandbox level_hasPermission (Some 2) foreign_editor).
Proof.
  apply (X10_no_permission_no_unforked_continue level_hasPermission (Some 2)
           foreign_editor (fun _ => true) VUndefined
           (mkSandbox "xyz89" false 0 true) eq_refl eq_refl).
  vm_compute. right. left.
Defined.

Lemma X11_failed_fork_cancels_witness :
  last (play (fun _ => false) (VStr "fork")
          (withOwnedSandbox level_hasPermission None frozen_editor))
  = Some EvCancel.
Proof.
  apply (X11_failed_fork_cancels level_hasPermission None frozen_editor
           (fun _ => false) (VStr "fork") "abc12").
  vm_compute. right. left.
Defined.

Lemma X12_modal_asked_exactly_when_witness :
  ∃ r, EvModal r
         ∈ play (fun _ => true) (VStr "cancel")
             (withOwnedSandbox level_hasPermission (Some 2) frozen_editor).
Proof.
  apply (X12_modal_asked_exactly_when level_hasPermission (Some 2)
           frozen_editor (fun _ => true) (VStr "cancel")).
  exists (mkSandbox "abc12" true 3 true). repeat split.
Defined.

Lemma X13_unfreeze_only_on_request_witness :
  play (fun _ => true) (VStr "unfreeze")
    (withOwnedSandbox level_hasPermission None frozen_editor)
  = [EvModal (VStr "unfreeze"); EvSessionFrozen false; EvContinue].
Proof.
  apply (X13_unfreeze_only_on_request level_hasPermission None frozen_editor
           (fun _ => true) (VStr "unfreeze") false).
  vm_compute. right. left.
Defined.

Lemma X14_other_answer_continues_frozen_witness :
  play (fun _ => true) VUndefined
    (withOwnedSandbox level_hasPermission None frozen_editor)
  = [EvModal VUndefined; EvContinue].
Proof.
  apply (X14_other_answer_continues_frozen level_hasPermission None
           frozen_editor (fun _ => true) VUndefined
           (mkSandbox "abc12" true 3 true)); done.
Defined.

(** * The caller that waits for [forkFrozenModal] *)

Lemma run_app reg cs1 cs2 w :
  run reg (cs1 ++ cs2) w = run reg cs2 (run reg cs1 w).
Proof. apply foldl_app. Qed.

(** While [n] waits on [p], a call to another modal leaves it waiting. *)
Lemma dispatch_waiting ms c w n p :
  Inv ms w → resolver w !! n = Some p → promises w !! p = Some Pending →
  call_name c ≠ n →
  resolver (dispatch (createModals ms) c w).1 !! n = Some p ∧
  promises (dispatch (createModals ms) c w).1 !! p = Some Pending.
Proof.
  intros Hinv Hr Hp Hc. pose proof (lookup_lt_Some _ _ _ Hp) as Hlt.
  destruct c as [k ns|k payload]; cbn in Hc |- *;
    rewrite createModals_actions; destruct (ms !! k) as [m|]; cbn; try done.
  - rewrite open_promises_old by done. split; [|done].
    destruct (open_cases k m ns w) as [[st ->]|[st ->]]; cbn; [done|].
    by rewrite lookup_insert_ne.
  - unfold close. cbn. destruct (resolver w !! k) as [q|] eqn:Hq; cbn; [|done].
    split; [done|]. rewrite settle_other; [done|]. intros ->.
    by apply Hc, (inv_res_inj _ _ Hinv k n p).
Qed.

Lemma run_waiting ms cs w n p :
  Inv ms w → resolver w !! n = Some p → promises w !! p = Some Pending →
  (∀ c, c ∈ cs → call_name c ≠ n) →
  resolver (run (createModals ms) cs w) !! n = Some p ∧
  promises (run (createModals ms) cs w) !! p = Some Pending.
Proof.
  revert w. induction cs as [|c cs IH]; intros w Hinv Hr Hp Hcs; [done|].
  destruct (dispatch_waiting ms c w n p Hinv Hr Hp) as [Hr' Hp'].
  { apply Hcs. by left. }
  change (run (createModals ms) (c :: cs) w)
    with (run (createModals ms) cs (dispatch (createModals ms) c w).1).
  apply IH; try done.
  - by apply dispatch_inv.
  - intros c' Hc'. apply Hcs. by right.
Qed.

(** Without a [close] of [n], a pending promise that only [n] may hold stays
    pending. *)
Lemma dispatch_unclosed reg c w n p :
  Owned p n w → promises w !! p = Some Pending →
  (∀ payload, c ≠ Close n payload) →
  (∀ k a, actions reg !! k = Some a → act_name a = k) →
  promises (dispatch reg c w).1 !! p = Some Pending.
Proof.
  intros [Hlt Hown] Hp Hc Hnames.
  destruct c as [k ns|k payload]; cbn;
    destruct (actions reg !! k) as [a|] eqn:Ha; cbn; try done.
  - by rewrite open_promises_old.
  - rewrite (Hnames _ _ Ha). unfold close. cbn.
    destruct (resolver w !! k) as [q|] eqn:Hq; cbn; [|done].
    rewrite settle_other; [done|]. intros ->.
    apply Hown in Hq as ->. by apply (Hc payload).
Qed.

Lemma createModals_act_name ms k a :
  actions (createModals ms) !! k = Some a → act_name a = k.
Proof.
  rewrite createModals_actions. destruct (ms !! k); cbn; [|done].
  by intros [= <-].
Qed.

Lemma run_unclosed ms cs w n p :
  Owned p n w → promises w !! p = Some Pending →
  (∀ payload, Close n payload ∉ cs) →
  promises (run (createModals ms) cs w) !! p = Some Pending.
Proof.
  revert w. induction cs as [|c cs IH]; intros w Hown Hp Hcs; [done|].
  change (run (createModals ms) (c :: cs) w)
    with (run (createModals ms) cs (dispatch (createModals ms) c w).1).
  apply IH.
  - by apply dispatch_owned.
  - apply (dispatch_unclosed _ _ _ n); try done.
    + intros payload ->. apply (Hcs payload). by left.
    + apply createModals_act_name.
  - intros payload Hin. apply (Hcs payload). by right.
Qed.

(** The answer that reaches the caller once the modal is closed. *)
Lemma response_after_close ms m cs ui1 x ui2 :
  ms !! "forkFrozenModal" = Some m →
  (∀ c, c ∈ ui1 → call_name c ≠ "forkFrozenModal") →
  forkFrozenModal_response (createModals ms)
    (ui1 ++ Close "forkFrozenModal" x :: ui2) (reached ms cs)
  = Some (js_or x (get_result m)).
Proof.
  intros Hm Hui. unfold forkFrozenModal_response.
  pose proof (reached_inv ms cs) as Hinv.
  assert (Hne : "forkFrozenModal" ≠ "current") by discriminate.
  destruct (inv_slot_registered _ _ _ _ Hinv Hne Hm) as (s & Hs).
  assert (Hinv1 : Inv ms (dispatch (createModals ms)
                            (Open "forkFrozenModal" None) (reached ms cs)).1)
    by (by apply dispatch_inv).
  rewrite (dispatch_open ms _ m) in Hinv1 |- * by done.
  rewrite (open_slot _ _ _ _ _ Hne Hs) in Hinv1 |- *. cbn [fst] in Hinv1.
  set (p := length (promises (reached ms cs))) in *.
  match goal with |- context [run _ _ ?w] => set (w1 := w) in * end.
  destruct (run_waiting ms ui1 w1 "forkFrozenModal" p Hinv1) as [Hr Hp];
    try done.
  { cbn. apply lookup_insert_eq. }
  { cbn. rewrite lookup_app_r by lia. by rewrite Nat.sub_diag. }
  unfold awaited. rewrite run_app.
  change (run (createModals ms) (Close "forkFrozenModal" x :: ui2)
            (run (createModals ms) ui1 w1))
    with (run (createModals ms) ui2
            (dispatch (createModals ms) (Close "forkFrozenModal" x)
               (run (createModals ms) ui1 w1)).1).
  rewrite (run_fulfilled_stays _ _ _ p (js_or x (get_result m))); [done|].
  rewrite (dispatch_close ms _ m) by done.
  rewrite (close_set _ _ _ _ _ Hr). cbn. by apply settle_pending.
Qed.

(** X15: the caller of [await actions.modals.forkFrozenModal.open()]
    resumes with [x || result] of the first [close(x)] of that modal, whatever
    is called on other modals before and on any modal afterwards. *)
Theorem X15_modal_answer_reaches_caller ms m cs ui1 x ui2 :
  ms !! "forkFrozenModal" = Some m →
  (∀ c, c ∈ ui1 → call_name c ≠ "forkFrozenModal") →
  forkFrozenModal_response (createModals ms)
    (ui1 ++ Close "forkFrozenModal" x :: ui2) (reached ms cs)
  = Some (if truthy x then x else get_result m).
Proof. apply response_after_close. Qed.

Lemma X15_modal_answer_reaches_caller_witness :
  forkFrozenModal_response (createModals example_modals)
    ([Open "moveSandboxModal" None; Close "moveSandboxModal" (VStr "fork")]
     ++ Close "forkFrozenModal" (VStr "cancel")
     :: [Close "forkFrozenModal" (VStr "unfreeze")])
    (reached example_modals [])
  = Some (VStr "cancel").
Proof.
  apply (X15_modal_answer_reaches_caller example_modals
           (Modal.mk None (Some (VStr "fork"))) []
           [Open "moveSandboxModal" None; Close "moveSandboxModal" (VStr "fork")]
           (VStr "cancel") [Close "forkFrozenModal" (VStr "unfreeze")]).
  - reflexivity.
  - intros c Hc. apply elem_of_cons in Hc as [->|Hc]; [discriminate|].
    apply list_elem_of_singleton in Hc as ->. discriminate.
Defined.

(** X16: as long as nobody closes [forkFrozenModal], the caller of
    [await actions.modals.forkFrozenModal.open()] does not resume: there is
    no timeout and no other call answers for it. *)
Theorem X16_caller_waits_until_closed ms m cs ui :
  ms !! "forkFrozenModal" = Some m →
  (∀ payload, Close "forkFrozenModal" payload ∉ ui) →
  forkFrozenModal_response (createModals ms) ui (reached ms cs) = None.
Proof.
  intros Hm Hui. unfold forkFrozenModal_response.
  pose proof (reached_inv ms cs) as Hinv.
  assert (Hne : "forkFrozenModal" ≠ "current") by discriminate.
  destruct (inv_slot_registered _ _ _ _ Hinv Hne Hm) as (s & Hs).
  rewrite (dispatch_open ms _ m) by done.
  rewrite (open_slot _ _ _ _ _ Hne Hs).
  set (p := length (promises (reached ms cs))).
  match goal with |- context [run _ _ ?w] => set (w1 := w) end.
  unfold awaited.
  rewrite (run_unclosed ms ui w1 "forkFrozenModal" p); try done.
  - split; cbn; [rewrite length_app; cbn; lia|].
    intros k. destruct (decide ("forkFrozenModal" = k)) as [<-|Hk]; [done|].
    rewrite lookup_insert_ne by done. intros Hq.
    apply (inv_res_bound _ _ Hinv) in Hq. unfold p in Hq. lia.
  - cbn. rewrite lookup_app_r by lia. by rewrite Nat.sub_diag.
Qed.

Lemma X16_caller_waits_until_closed_witness :
  forkFrozenModal_response (createModals example_modals)
    [Close "moveSandboxModal" (VStr "cancel"); Open "forkFrozenModal" None]
    (reached example_modals [])
  = None.
Proof.
  apply (X16_caller_waits_until_closed example_modals
           (Modal.mk None (Some (VStr "fork"))) []
           [Close "moveSandboxModal" (VStr "cancel");
            Open "forkFrozenModal" None] eq_refl).
  intros payload Hin. apply elem_of_cons in Hin as [?|Hin]; [done|].
  apply list_elem_of_singleton in Hin. discriminate.
Defined.

(** X17: on a frozen sandbox in a frozen session, when [forkFrozenModal] has
    no default result and is closed without payload (or with a falsy one),
    [withOwnedSandbox] resumes with [undefined] and runs [continueAction]:
    no fork, and the session stays frozen. *)
Theorem X17_dismissed_modal_continues_frozen
    {P : Type} (hasPermission : P → P → bool) requiredPermission
    (editor : Editor P) sandbox fork_ok ms m cs ui1 x ui2 :
  currentSandbox editor = Some sandbox →
  lacks_permission hasPermission requiredPermission sandbox = false →
  isFrozen sandbox = true → sessionFrozen editor = true →
  ms !! "forkFrozenModal" = Some m → Modal.result m = None →
  truthy x = false →
  (∀ c, c ∈ ui1 → call_name c ≠ "forkFrozenModal") →
  play_with_registry fork_ok (createModals ms)
    (ui1 ++ Close "forkFrozenModal" x :: ui2) (reached ms cs)
    (withOwnedSandbox hasPermission requiredPermission editor)
  = Some [EvModal VUndefined; EvContinue].
Proof.
  intros Hs Hl Hf Hsf Hm Hr Hx Hui. unfold withOwnedSandbox.
  rewrite Hs, Hl, Hf, Hsf. cbn [andb play_with_registry].
  rewrite (response_after_close ms m cs ui1 x ui2 Hm Hui).
  unfold js_or, get_result. by rewrite Hx, Hr.
Qed.

Lemma X17_dismissed_modal_continues_frozen_witness :
  play_with_registry (fun _ => true)
    (createModals {[ "forkFrozenModal" := Modal.mk None None ]})
    ([] ++ Close "forkFrozenModal" VUndefined :: [])
    (reached {[ "forkFrozenModal" := Modal.mk None None ]} [])
    (withOwnedSandbox level_hasPermission None frozen_editor)
  = Some [EvModal VUndefined; EvContinue].
Proof.
  apply (X17_dismissed_modal_continues_frozen level_hasPermission None
           frozen_editor (mkSandbox "abc12" true 3 true) (fun _ => true)
           {[ "forkFrozenModal" := Modal.mk None None ]} (Modal.mk None None)
           [] [] VUndefined []); try reflexivity.
  intros c Hc. by apply not_elem_of_nil in Hc.
Defined.

(** * The import form *)

Section ImportTab.
Context (test : string → bool) (gitHubToSandboxUrl : string → string).
Context (trim : string → string).

(** X18: after every input the form holds the input as [url]; an error is
    set exactly when the input is not empty and does not match
    [gitHubRepoPattern]; a link is computed, and the two buttons are
    enabled, only for an input that matches, and never together with an
    error.  What the form held before plays no part. *)
Theorem X18_updateUrl_form protocolAndHost newUrl form :
  let form' := updateUrl test gitHubToSandboxUrl protocolAndHost trim
                 newUrl form in
  url form' = newUrl ∧
  (error form' ≠ None ↔ newUrl ≠ "" ∧ test newUrl = false) ∧
  (buttons_disabled form' = false →
   transformedUrl form' ≠ "" ∧ error form' = None ∧
   newUrl ≠ "" ∧ test newUrl = true) ∧
  form' = updateUrl test gitHubToSandboxUrl protocolAndHost trim
            newUrl initial_form.
Proof.
  intros form'. subst form'. unfold updateUrl, buttons_disabled.
  destruct (String.eqb_spec newUrl "") as [->|Hne]; cbn.
  - split_and!; [done|naive_solver|done|done].
  - destruct (test newUrl) eqn:Ht; cbn.
    + split_and!; [done|naive_solver| |done].
      intros Hb%String.eqb_neq. done.
    + split_and!; [done|naive_solver|done|done].
Qed.

(** X19: what the form shows under the input: the placeholder text for an
    empty input, the error text for an input that does not match, and for
    an input that matches the link to the generated URL, displayed without
    its [http://] or [https://]. *)
Theorem X19_what_the_form_shows scheme host newUrl form :
  scheme = "https://" ∨ scheme = "http://" →
  let form' := updateUrl test gitHubToSandboxUrl (scheme ++ host) trim
                 newUrl form in
  shown form' =
    if String.eqb newUrl "" then
      PlaceHolderLink "Enter a URL to see the generated URL"
    else if test newUrl then
      GitHubLink (scheme ++ host ++ gitHubToSandboxUrl (trim newUrl))
                 (host ++ gitHubToSandboxUrl (trim newUrl))
    else PlaceHolderLink "The URL provided is not valid.".
Proof.
  intros Hscheme form'. subst form'. unfold updateUrl, shown.
  destruct (String.eqb newUrl ""); [done|].
  destruct (test newUrl); [|done]. cbn [negb transformedUrl error].
  destruct Hscheme as [-> | ->]; reflexivity.
Qed.
End ImportTab.

Lemma X18_updateUrl_form_witness :
  transformedUrl
    (updateUrl (String.prefix "https://github.com/") (fun u => "/s/github" ++ u)
       "https://codesandbox.io" (fun u => u)
       "https://github.com/a/b" initial_form) ≠ "".
Proof.
  apply (X18_updateUrl_form (String.prefix "https://github.com/")
           (fun u => "/s/github" ++ u) (fun u => u)
           "https://codesandbox.io" "https://github.com/a/b" initial_form).
  reflexivity.
Defined.

Lemma X19_what_the_form_shows_witness :
  shown
    (updateUrl (String.prefix "https://github.com/") (fun u => "/s/github" ++ u)
       ("https://" ++ "codesandbox.io") (fun u => u)
       "https://github.com/a/b" initial_form)
  = GitHubLink "https://codesandbox.io/s/githubhttps://github.com/a/b"
               "codesandbox.io/s/githubhttps://github.com/a/b".
Proof.
  apply (X19_what_the_form_shows (String.prefix "https://github.com/")
           (fun u => "/s/github" ++ u) (fun u => u)
           "https://" "codesandbox.io" "https://github.com/a/b" initial_form).
  by left.
Defined.

(** * [withLoadApp] *)

Lemma boot_continue_run env hasContinue st seen :
  boot_go env (boot_continue hasContinue) st seen
  = ((seen ++ continue_trace env hasContinue)%list,
     continue_state env hasContinue st,
     continue_result env hasContinue).
Proof.
  unfold continue_state, boot_continue, boot_finish, continue_trace,
    continue_result, finish_trace.
  destruct hasContinue; cbn [boot_go andb];
    destruct (throws env continueAction) eqn:Hc; cbn [boot_go negb];
    rewrite ?Hc; cbn [boot_go negb];
    destruct (throws env (http_get contributors_address)) eqn:Hh;
    cbn [boot_go negb]; rewrite ?Hh;
    destruct (fetched_contributors env); cbn [boot_go];
    by rewrite <- ?app_assoc.
Qed.

Arguments boot_continue : simpl never.
Arguments apply_write : simpl never.

(** Reading a field after a write. *)
Lemma hasLogIn_write w st :
  hasLogIn (apply_write w st)
  = match w with W_hasLogIn b => b | _ => hasLogIn st end.
Proof. by destruct w. Qed.

Lemma user_write w st :
  user (apply_write w st) = match w with W_user u => u | _ => user st end.
Proof. by destruct w. Qed.

Lemma jwt_write w st :
  jwt (apply_write w st) = match w with W_delete_jwt => None | _ => jwt st end.
Proof. by destruct w. Qed.

Ltac boot_case :=
  match goal with
  | |- context [match ?x with _ => _ end] =>
      lazymatch type of x with
      | bool => destruct x eqn:?
      | option _ => destruct x eqn:?
      end
  end.

(** Case analysis over the runs of [withLoadApp]: one goal per path up to
    [if (continueAction)], with the run replaced by what it shows, the state
    it ends in and how it ends. *)
Ltac boot_cases :=
  unfold boot_trace, boot_result;
  match goal with
  | |- context [boot_run ?e ?b ?s] =>
      let res := fresh "res" in
      let H := fresh "Hres" in
      remember (boot_run e b s) as res eqn:H; revert H;
      unfold boot_run, withLoadApp, boot_session, boot_stale_token,
        boot_signed_in, boot_anonymous;
      repeat (cbn; rewrite ?hasLogIn_write, ?user_write, ?jwt_write; cbn;
              boot_case);
      cbn; rewrite ?boot_continue_run; intros ->; cbn [fst snd]
  end.

Lemma elem_of_existsb {A} (p : A → bool) (x : A) (l : list A) :
  x ∈ l → p x = true → existsb p l = true.
Proof.
  intros Hin Hp. apply existsb_exists. exists x. split; [|done].
  by apply list_elem_of_In.
Qed.

(** [H : x ∈ l] with [p x]: closes the goal when nothing in [l] has [p]. *)
Ltac elem_filter p H :=
  let Hf := fresh in
  pose proof (elem_of_existsb p _ _ H eq_refl) as Hf;
  cbv in Hf; try discriminate Hf; clear Hf.

(** [H : x ∈ [a; b; ...]]: one goal per element that [x] can be. *)
Ltac elem_cases H :=
  repeat (apply elem_of_cons in H as [H|H]; [try discriminate H|]);
  try (by apply elem_of_nil in H).

(** [x ∈ [a; b; ...]] for an [x] that is there. *)
Ltac elem_solve :=
  solve [repeat (apply elem_of_cons; first [left; reflexivity | right])].

(** ** From [if (continueAction)] to the end *)

Ltac tail_cases env hasContinue :=
  unfold continue_trace, continue_result, finish_trace;
  destruct hasContinue; cbn [andb];
  destruct (throws env continueAction) eqn:?; cbn [negb app];
  destruct (throws env (http_get contributors_address)) eqn:?; cbn [negb app];
  destruct (fetched_contributors env) eqn:?; cbn [negb app].

Lemma continue_trace_elem env hasContinue x :
  x ∈ continue_trace env hasContinue → is_tail x = true.
Proof. tail_cases env hasContinue; intros Hin; elem_cases Hin; by subst. Qed.

Lemma continue_called env :
  Called continueAction (negb (throws env continueAction))
    ∈ continue_trace env true.
Proof. unfold continue_trace. apply elem_of_cons. by left. Qed.

Lemma continue_calls env hasContinue :
  calls_of continueAction (continue_trace env hasContinue)
  = if hasContinue then 1 else 0.
Proof. by tail_cases env hasContinue. Qed.

Lemma continue_loaded env hasContinue :
  Stored (W_hasLoadedApp true) ∈ continue_trace env hasContinue ↔
  continue_result env hasContinue = Resolves.
Proof.
  tail_cases env hasContinue; (split; [intros Hin; by elem_cases Hin|]);
    intros; try done; elem_solve.
Qed.

Lemma continue_loaded_then env hasContinue :
  Stored (W_hasLoadedApp true) ∈ continue_trace env hasContinue →
  Stored (W_isAuthenticating false) ∈ continue_trace env hasContinue ∧
  (hasContinue = true →
   Called continueAction true ∈ continue_trace env hasContinue).
Proof.
  tail_cases env hasContinue; intros Hin; elem_cases Hin;
    (split; [elem_solve|]); intros; try done; elem_solve.
Qed.

Lemma continue_failed env hasContinue :
  Called continueAction false ∈ continue_trace env hasContinue →
  continue_result env hasContinue = Rejects ∧
  (Stored (W_hasLoadedApp true) ∉ continue_trace env hasContinue) ∧
  (Stored (W_isAuthenticating false) ∉ continue_trace env hasContinue).
Proof.
  tail_cases env hasContinue; intros Hin; elem_cases Hin;
    (split; [done|]); split; intros Hin'; elem_cases Hin'.
Qed.

Lemma continue_contributors env hasContinue l :
  Stored (W_contributors l) ∈ continue_trace env hasContinue ↔
  continue_result env hasContinue = Resolves ∧
  throws env (http_get contributors_address) = false ∧
  ∃ cs, fetched_contributors env = Some cs ∧ l = login <$> cs.
Proof.
  tail_cases env hasContinue;
    (split;
     [ intros Hin; elem_cases Hin; simplify_eq; eauto
     | intros (? & ? & cs & ? & ->); simplify_eq; elem_solve ]).
Qed.

Lemma continue_fetch env hasContinue ok :
  Called (http_get contributors_address) ok ∈ continue_trace env hasContinue ↔
  continue_result env hasContinue = Resolves ∧
  ok = negb (throws env (http_get contributors_address)).
Proof.
  tail_cases env hasContinue;
    (split;
     [ intros Hin; elem_cases Hin; by simplify_eq
     | intros [? ->]; simplify_eq; elem_solve ]).
Qed.

Lemma calls_of_app c tr1 tr2 :
  calls_of c (tr1 ++ tr2) = calls_of c tr1 + calls_of c tr2.
Proof. unfold calls_of. by rewrite List.filter_app, length_app. Qed.

(** [H : x ∈ tr] for an [x] with [p x] that the tail of a run does not
    show: closes the goal when [x] is not in the run. *)
Ltac trace_absent p H :=
  first
    [ apply elem_of_app in H as [H|H];
      [ elem_filter p H | apply continue_trace_elem in H; discriminate H ]
    | elem_filter p H ].

(** [H : x ∈ tr] for an [x] with [p x] that only the tail of a run shows:
    leaves [H] about the tail, and closes the goal when the run has none. *)
Ltac trace_absent_tail p H :=
  first
    [ apply elem_of_app in H as [H|H]; [ elem_filter p H | ]
    | elem_filter p H ].

(** [x ∈ tr] for an [x] of the part before the tail. *)
Ltac elem_left :=
  first [ apply elem_of_app; left; elem_solve | elem_solve ].

(** X20: when the app is loaded already, [withLoadApp] does nothing but
    run [continueAction], if it was given one: no write, no other call; the
    run rejects exactly when [continueAction] does. *)
Theorem X20_loaded_app_only_continues env hasContinue st :
  hasLoadedApp st = true →
  boot_run env (withLoadApp hasContinue) st =
    if hasContinue then
      ([Called continueAction (negb (throws env continueAction))],
       meanwhile env continueAction st,
       if throws env continueAction then Rejects else Resolves)
    else ([], st, Resolves).
Proof.
  intros Hl. unfold boot_run, withLoadApp. cbn [boot_go]. rewrite Hl.
  destruct hasContinue; cbn; [|done]. by destruct (throws env continueAction).
Qed.

(** X21: a token left in [localStorage.jwt] signs the user out.  When the
    first three calls return and a non-empty token is stored, the token is
    deleted; and in every run that deletes the token, the cookie is cleared
    and [hasLogIn] set to [false] before, [getCurrentUser] is not called,
    [hasLogIn] is not set to [true], and [revokeToken] is called only with
    what [JSON.parse] returned. *)
Theorem X21_stale_token_signs_out env hasContinue st :
  let tr := boot_trace env hasContinue st in
  (∀ text,
     hasLoadedApp st = false →
     throws env connection_addListener = false →
     throws env setStoredSettings = false →
     throws env codesandboxApi_listen = false →
     jwt (meanwhile env setStoredSettings
            (apply_write (W_isAuthenticating true) st)) = Some text →
     text ≠ "" →
     Stored W_delete_jwt ∈ tr) ∧
  ((Stored W_delete_jwt ∈ tr) →
   Stored (W_cookie signedIn_cookie) ∈ tr ∧
   Stored (W_hasLogIn false) ∈ tr ∧
   (∀ ok, Called api_getCurrentUser ok ∉ tr) ∧
   (Stored (W_hasLogIn true) ∉ tr) ∧
   (∀ token ok, Called (api_revokeToken token) ok ∈ tr →
      ∃ text, token = parsed env text ∧ Called (JSON_parse text) true ∈ tr)).
Proof.
  intros tr. subst tr. split.
  - intros text Hl H1 H2 H3 Hj Hne.
    boot_cases; try congruence.
    all: try (match goal with H : (_ =? _)%string = true |- _ =>
                apply String.eqb_eq in H end; congruence).
    all: try (match goal with H : _ && _ = true |- _ =>
                apply andb_prop in H as [? ?] end; congruence).
    all: elem_left.
  - boot_cases; intros Hin; trace_absent (is_stored W_delete_jwt) Hin.
    all: split; [|split; [|split; [|split]]];
      [ elem_left | elem_left
      | intros ok Hin'; trace_absent (is_called api_getCurrentUser) Hin'
      | intros Hin'; trace_absent (is_stored (W_hasLogIn true)) Hin'
      | intros token ok Hin';
        first [ apply elem_of_app in Hin' as [Hin'|Hin'];
                [|apply continue_trace_elem in Hin'; discriminate Hin']
              | idtac ];
        elem_cases Hin';
        (simplify_eq; eexists; split; [reflexivity|elem_left]) ].
Qed.

(** X22: once [getCurrentUser] is called, the sign-in block ends in one of
    two ways, never both and never neither: [hasLogIn] is set to [true], or
    [handleError] is called with the sign-in message.  Either way, when
    [handleError] returned, the boot goes on to [continueAction]. *)
Theorem X22_sign_in_ends_one_way env hasContinue st ok :
  let tr := boot_trace env hasContinue st in
  Called api_getCurrentUser ok ∈ tr →
  ((Stored (W_hasLogIn true) ∈ tr ∧
    ∀ ok', Called (handleError sign_in_trouble) ok' ∉ tr) ∨
   ((Stored (W_hasLogIn true) ∉ tr) ∧
    ∃ ok', Called (handleError sign_in_trouble) ok' ∈ tr)) ∧
  (hasContinue = true →
   Stored (W_hasLogIn true) ∈ tr ∨
   Called (handleError sign_in_trouble) true ∈ tr →
   ∃ ok', Called continueAction ok' ∈ tr).
Proof.
  intros tr. subst tr.
  boot_cases; intros Hin; trace_absent (is_called api_getCurrentUser) Hin.
  all: split;
    [ first
        [ left; split;
          [ elem_left
          | intros ok' Hin';
            trace_absent (is_called (handleError sign_in_trouble)) Hin' ]
        | right; split;
          [ intros Hin'; trace_absent (is_stored (W_hasLogIn true)) Hin'
          | eexists; elem_left ] ]
    | intros -> Hor;
      first
        [ eexists; apply elem_of_app; right; apply continue_called
        | destruct Hor as [Hs|Hh];
          [ trace_absent (is_stored (W_hasLogIn true)) Hs
          | elem_cases Hh ] ] ].
Qed.

(** X23: the calls in the inner [try] do not count as sign-in trouble.  When
    [trackCurrentTeams] throws, [identifyCurrentUser] is skipped and the
    block goes on with [showUserSurveyIfNeeded]; when [identifyCurrentUser]
    throws, the block goes on as well. *)
Theorem X23_tracking_failures_are_swallowed env hasContinue st :
  let tr := boot_trace env hasContinue st in
  (Called trackCurrentTeams false ∈ tr →
   (∀ ok, Called identifyCurrentUser ok ∉ tr) ∧
   ∃ ok, Called showUserSurveyIfNeeded ok ∈ tr) ∧
  (Called identifyCurrentUser false ∈ tr →
   ∃ ok, Called showUserSurveyIfNeeded ok ∈ tr).
Proof.
  intros tr. subst tr. split.
  - boot_cases; intros Hin; trace_absent (is_called trackCurrentTeams) Hin.
    all: first [ apply elem_of_app in Hin as [Hin|Hin];
                 [|apply continue_trace_elem in Hin; discriminate Hin]
               | idtac ];
      elem_cases Hin;
      (split;
       [ intros ok Hin'; trace_absent (is_called identifyCurrentUser) Hin'
       | eexists; elem_left ]).
  - boot_cases; intros Hin; trace_absent (is_called identifyCurrentUser) Hin.
    all: first [ apply elem_of_app in Hin as [Hin|Hin];
                 [|apply continue_trace_elem in Hin; discriminate Hin]
               | idtac ];
      elem_cases Hin; eexists; elem_left.
Qed.

(** X24: [continueAction] runs at most once in a run of [withLoadApp], and
    not at all when none was given.  When it throws, the run rejects and
    neither [hasLoadedApp = true] nor [isAuthenticating = false] is
    written. *)
Theorem X24_continueAction_once env hasContinue st :
  let tr := boot_trace env hasContinue st in
  (calls_of continueAction tr ≤ 1)%nat ∧
  (hasContinue = false → calls_of continueAction tr = 0%nat) ∧
  (Called continueAction false ∈ tr →
   boot_result env hasContinue st = Rejects ∧
   (Stored (W_hasLoadedApp true) ∉ tr) ∧
   (Stored (W_isAuthenticating false) ∉ tr)).
Proof.
  intros tr. subst tr. unfold boot_result at 1.
  boot_cases; rewrite ?calls_of_app, ?continue_calls.
  all: split; [|split];
    [ by destruct hasContinue; cbv; lia
    | intros ->;
      try (match goal with H : _ && false = true |- _ =>
             by rewrite andb_false_r in H end);
      by cbv
    | intros Hin;
      first
        [ apply elem_of_app in Hin as [Hin|Hin];
          [ elem_filter (is_called continueAction) Hin
          | destruct (continue_failed _ _ Hin) as (Hr & Hl & Ha);
            split; [exact Hr|];
            split; intros Hin';
            (apply elem_of_app in Hin' as [Hin'|Hin'];
             [ first [ elem_filter (is_stored (W_hasLoadedApp true)) Hin'
                     | elem_filter (is_stored (W_isAuthenticating false)) Hin' ]
             | by first [apply Hl | apply Ha] ]) ]
        | elem_cases Hin;
          (split; [done|]); split; intros Hin'; elem_cases Hin' ] ].
Qed.

(** X25: from an app not yet loaded, [hasLoadedApp = true] is written
    exactly in the runs that resolve; and a run that writes it has set
    [isAuthenticating] to [true] and back to [false], and, when a
    [continueAction] was given, has seen it return. *)
Theorem X25_loaded_exactly_when_resolved env hasContinue st :
  let tr := boot_trace env hasContinue st in
  hasLoadedApp st = false →
  (Stored (W_hasLoadedApp true) ∈ tr ↔
   boot_result env hasContinue st = Resolves) ∧
  (Stored (W_hasLoadedApp true) ∈ tr →
   Stored (W_isAuthenticating true) ∈ tr ∧
   Stored (W_isAuthenticating false) ∈ tr ∧
   (hasContinue = true → Called continueAction true ∈ tr)).
Proof.
  intros tr Hl. subst tr. unfold boot_result at 1.
  boot_cases; try congruence.
  all: try (match goal with H : _ && _ = true |- _ =>
              apply andb_prop in H as [? ?] end; congruence).
  all: split;
    [ split;
      [ intros Hin;
        first
          [ apply elem_of_app in Hin as [Hin|Hin];
            [ elem_filter (is_stored (W_hasLoadedApp true)) Hin
            | by apply continue_loaded ]
          | elem_filter (is_stored (W_hasLoadedApp true)) Hin ]
      | intros Hr;
        first [ apply elem_of_app; right; by apply continue_loaded
              | discriminate Hr ] ]
    | intros Hin;
      first
        [ apply elem_of_app in Hin as [Hin|Hin];
          [ elem_filter (is_stored (W_hasLoadedApp true)) Hin
          | destruct (continue_loaded_then _ _ Hin) as [Ha Hc];
            split; [elem_left|];
            split; [apply elem_of_app; by right|];
            intros Hh; apply elem_of_app; right; by apply Hc ]
        | elem_filter (is_stored (W_hasLoadedApp true)) Hin ] ].
Qed.

(** X26: the list of contributors is written only from a response that has
    one, as the logins in their order, and only after [hasLoadedApp = true]
    was written; a failed request or a response without the list leaves
    [state.contributors] unwritten and does not make the run reject. *)
Theorem X26_contributors_from_response env hasContinue st :
  let tr := boot_trace env hasContinue st in
  (∀ l, Stored (W_contributors l) ∈ tr →
     Stored (W_hasLoadedApp true) ∈ tr ∧
     Called (http_get contributors_address) true ∈ tr ∧
     ∃ cs, fetched_contributors env = Some cs ∧ l = login <$> cs) ∧
  (∀ ok, Called (http_get contributors_address) ok ∈ tr →
     boot_result env hasContinue st = Resolves ∧
     ((∃ l, Stored (W_contributors l) ∈ tr) ↔
      ok = true ∧ is_Some (fetched_contributors env))).
Proof.
  intros tr. subst tr. unfold boot_result at 1. split.
  - intros l.
    boot_cases; intros Hin; trace_absent_tail (is_stored (W_contributors [])) Hin.
    all: apply continue_contributors in Hin as (Hr & Ht & cs & Hc & ->).
    all: split; [apply elem_of_app; right; by apply continue_loaded|].
    all: split; [|by eauto].
    all: apply elem_of_app; right; apply continue_fetch; by rewrite Ht.
  - intros ok.
    boot_cases; intros Hin;
      trace_absent_tail (is_called (http_get contributors_address)) Hin.
    all: apply continue_fetch in Hin as [Hr ->]; split; [exact Hr|].
    all: split;
      [ intros [l Hl]; trace_absent_tail (is_stored (W_contributors [])) Hl;
        apply continue_contributors in Hl as (_ & Ht & cs & Hc & _);
        rewrite Ht, Hc; by eauto
      | intros [Ht [cs Hc]]; apply negb_true_iff in Ht;
        exists (login <$> cs); apply elem_of_app; right;
        apply continue_contributors; by eauto ].
Qed.

(** ** Runs *)

(** [x ∈ tr] for a run [tr] in a given environment. *)
Ltac run_shows := cbv -[elem_of]; elem_solve.

Lemma X20_loaded_app_only_continues_witness :
  hasLoadedApp loaded_state = true ∧
  boot_run quiet_env (withLoadApp true) loaded_state
  = ([Called continueAction true], loaded_state, Resolves).
Proof.
  split; [reflexivity|].
  exact (X20_loaded_app_only_continues quiet_env true loaded_state eq_refl).
Defined.

Lemma X21_stale_token_signs_out_witness :
  Stored W_delete_jwt ∈ boot_trace quiet_env false stale_state ∧
  Stored (W_hasLogIn false) ∈ boot_trace quiet_env false stale_state ∧
  Stored (W_hasLogIn true) ∉ boot_trace quiet_env false stale_state.
Proof.
  destruct (X21_stale_token_signs_out quiet_env false stale_state) as [H1 H2].
  assert (Hd := H1 "abc" eq_refl eq_refl eq_refl eq_refl eq_refl
                   ltac:(discriminate)).
  destruct (H2 Hd) as (_ & Hf & _ & Hn & _).
  split; [exact Hd|]. split; [exact Hf|exact Hn].
Defined.

Lemma X22_sign_in_ends_one_way_witness :
  Called api_getCurrentUser true ∈ boot_trace quiet_env true signed_state ∧
  Stored (W_hasLogIn true) ∈ boot_trace quiet_env true signed_state ∧
  ∃ ok, Called continueAction ok ∈ boot_trace quiet_env true signed_state.
Proof.
  assert (Hin : Called api_getCurrentUser true
                  ∈ boot_trace quiet_env true signed_state) by run_shows.
  assert (Hs : Stored (W_hasLogIn true)
                 ∈ boot_trace quiet_env true signed_state) by run_shows.
  destruct (X22_sign_in_ends_one_way quiet_env true signed_state true Hin)
    as [_ Hc].
  split; [exact Hin|]. split; [exact Hs|].
  exact (Hc eq_refl (or_introl Hs)).
Defined.

Lemma X23_tracking_failures_are_swallowed_witness :
  Called trackCurrentTeams false
    ∈ boot_trace track_fails_env false signed_state ∧
  (Called identifyCurrentUser true
     ∉ boot_trace track_fails_env false signed_state) ∧
  ∃ ok, Called showUserSurveyIfNeeded ok
          ∈ boot_trace track_fails_env false signed_state.
Proof.
  assert (Hin : Called trackCurrentTeams false
                  ∈ boot_trace track_fails_env false signed_state)
    by run_shows.
  destruct (X23_tracking_failures_are_swallowed track_fails_env false
              signed_state) as [Ht _].
  destruct (Ht Hin) as [Hn Hs].
  split; [exact Hin|]. split; [exact (Hn true)|exact Hs].
Defined.

Lemma X24_continueAction_once_witness :
  Called continueAction false
    ∈ boot_trace continue_fails_env true fresh_state ∧
  boot_result continue_fails_env true fresh_state = Rejects ∧
  Stored (W_hasLoadedApp true)
    ∉ boot_trace continue_fails_env true fresh_state.
Proof.
  assert (Hin : Called continueAction false
                  ∈ boot_trace continue_fails_env true fresh_state)
    by run_shows.
  destruct (X24_continueAction_once continue_fails_env true fresh_state)
    as (_ & _ & Hf).
  destruct (Hf Hin) as (Hr & Hl & _).
  split; [exact Hin|]. split; [exact Hr|exact Hl].
Defined.

Lemma X25_loaded_exactly_when_resolved_witness :
  hasLoadedApp fresh_state = false ∧
  Stored (W_hasLoadedApp true) ∈ boot_trace quiet_env true fresh_state ∧
  Stored (W_isAuthenticating false) ∈ boot_trace quiet_env true fresh_state ∧
  Called continueAction true ∈ boot_trace quiet_env true fresh_state.
Proof.
  destruct (X25_loaded_exactly_when_resolved quiet_env true fresh_state
              eq_refl) as [[_ Hr] Hthen].
  assert (Hin := Hr eq_refl).
  destruct (Hthen Hin) as (_ & Ha & Hc).
  split; [reflexivity|]. split; [exact Hin|]. split; [exact Ha|].
  exact (Hc eq_refl).
Defined.

Lemma X26_contributors_from_response_witness :
  Called (http_get contributors_address) true
    ∈ boot_trace quiet_env false fresh_state ∧
  boot_result quiet_env false fresh_state = Resolves ∧
  ∃ l, Stored (W_contributors l) ∈ boot_trace quiet_env false fresh_state.
Proof.
  assert (Hin : Called (http_get contributors_address) true
                  ∈ boot_trace quiet_env false fresh_state) by run_shows.
  destruct (X26_contributors_from_response quiet_env false fresh_state)
    as [_ Hf].
  destruct (Hf true Hin) as [Hr [_ Hl]].
  split; [exact Hin|]. split; [exact Hr|].
  apply Hl. split; [reflexivity|]. by eexists.
Defined.

